(** * smart-data-connector: fetcher, schema inference and config generator

    A shallow embedding of the three library modules of the backend
    ([lib/fetcher.js], [lib/schema.js], [lib/generator.js]) together with the
    properties their specification states about them, followed by the
    [POST /api/test] handler that combines them, the mock server they are
    tried against, and further properties of all of these.

    Modelling conventions.
    - A JavaScript object used as a record of data properties is the list of
      its own enumerable properties, in [for ... in] enumeration order; a
      well-formed object has pairwise distinct property names.  Members
      inherited from [Object.prototype] are outside the model, with one
      exception: where the generator assigns a property by a computed name,
      the inherited [__proto__] accessor is modelled ([set_header]).
    - Strings are byte strings; [toLowerCase] is the case mapping of ASCII
      strings (a property stated of a name with other characters says so),
      and the default [Array.prototype.sort] order is the bytewise
      lexicographic one.
    - Numbers that the fetcher computes with (attempt counters, delays) are
      mathematical integers; a JSON number is a dyadic rational [m * 2^e].
    - The network is an oracle giving the outcome of the n-th request issued by
      one call of [fetchWithRetry]; requests and sleeps are recorded in a
      trace. *)

From Stdlib Require Import ZArith String Ascii List Lia Permutation Sorted.
From stdpp Require Import base tactics option list sets strings pretty sorting.
From Equations Require Import Equations.

Set Warnings "-register-all,-clear-no-such-hyp".
Local Open Scope Z_scope.

(** ** JavaScript values *)

(** A finite double is a dyadic rational; [Number.isInteger] only needs to
    know whether it has a fractional part. *)
Record number := mkNumber { mantissa : Z; exponent : Z }.

Definition Number_isInteger (n : number) : bool :=
  (0 <=? exponent n) || (mantissa n mod 2 ^ (- exponent n) =? 0).

Definition int (z : Z) : number := mkNumber z 0.

Inductive value :=
| VUndefined
| VNull
| VBool (b : bool)
| VNum (n : number)
| VStr (s : string)
| VArr (items : list value)
| VObj (props : list (string * value)).

Definition object := list (string * value).

Definition typeof (v : value) : string :=
  match v with
  | VUndefined => "undefined"
  | VNull => "object"
  | VBool _ => "boolean"
  | VNum _ => "number"
  | VStr _ => "string"
  | VArr _ => "object"
  | VObj _ => "object"
  end.

Definition Array_isArray (v : value) : bool :=
  match v with VArr _ => true | _ => false end.

(** [for (const key in v)] paired with [v[key]], for the values that pass a
    [typeof v === 'object' && v !== null] guard: the own properties of an
    object, the indices of an array (as decimal strings). *)
Definition for_in (v : value) : object :=
  match v with
  | VObj props => props
  | VArr items => imap (fun i x => (pretty i, x)) items
  | _ => []
  end.

(** [key in obj] for a plain object. *)
Definition has_key (key : string) (props : object) : bool :=
  existsb (fun p => String.eqb (fst p) key) props.

(** [obj[key]]: the value of the property, [undefined] when absent. *)
Fixpoint get_prop (props : object) (key : string) : value :=
  match props with
  | [] => VUndefined
  | (k, v) :: rest => if String.eqb k key then v else get_prop rest key
  end.

(** [a || b] on an optional string: the empty string is falsy. *)
Definition or_default (a : option string) (b : string) : string :=
  match a with
  | Some s => if String.eqb s "" then b else s
  | None => b
  end.

(** ** lib/fetcher.js *)

Module Fetcher.

Record response := mkResponse {
  r_status : Z;
  r_statusText : string;
  r_headers : list (string * string);
  r_data : value
}.

(** The value a failed request rejects with: [error.message], [error.code]
    and, when the server did answer, [error.response]. *)
Record error := mkError {
  e_message : string;
  e_code : option string;
  e_response : option response
}.

(** Outcome of one [await axios({...})]. *)
Inductive outcome :=
| Resolved (r : response)
| Rejected (e : error).

(** The response an attempt received, if any. *)
Definition received (o : outcome) : option response :=
  match o with
  | Resolved r => Some r
  | Rejected e => e_response e
  end.

Inductive event :=
| EvRequest (attempt : nat) (o : outcome)
| EvSleep (ms : Z).

Record FetchResult := mkResult {
  success : bool;
  status : Z;
  statusText : option string;
  headers : option (list (string * string));
  data : option value;
  error_message : option string;
  errorType : option string
}.

(** How the async function settles: it returns a result, or it throws the
    [TypeError] of reading [lastError.message] on [null]. *)
Inductive completion :=
| Return (r : FetchResult)
| ThrowTypeError.

Definition resolved_result (r : response) : FetchResult :=
  {| success := true;
     status := r_status r;
     statusText := Some (r_statusText r);
     headers := Some (r_headers r);
     data := Some (r_data r);
     error_message := None;
     errorType := None |}.

Definition error_response_result (e : error) (r : response) : FetchResult :=
  {| success := false;
     status := r_status r;
     statusText := Some (r_statusText r);
     headers := Some (r_headers r);
     data := Some (r_data r);
     error_message := Some (e_message e);
     errorType := None |}.

Definition exhausted_result (e : error) : FetchResult :=
  {| success := false;
     status := 0;
     statusText := None;
     headers := None;
     data := None;
     error_message := Some (e_message e);
     errorType := Some (or_default (e_code e) "NETWORK_ERROR") |}.

Definition after_loop (lastError : option error) : completion :=
  match lastError with
  | Some e => Return (exhausted_result e)
  | None => ThrowTypeError
  end.

Definition backoff (initialDelay : Z) (attempt : nat) : Z :=
  initialDelay * 2 ^ (Z.of_nat attempt - 1).

Section Loop.

Variable axios : nat -> outcome.
Variables maxRetries initialDelay : Z.

Definition prepend (evs : list event) (k : list event * completion)
  : list event * completion :=
  (evs ++ fst k, snd k).

(** The [while (attempt <= maxRetries)] loop, entered with the current
    values of [attempt] and [lastError]; it yields the events performed
    from here on and the way the function settles. *)
Equations? fetchLoop (attempt : nat) (lastError : option error)
  : list event * completion
  by wf (Z.to_nat (maxRetries + 1 - Z.of_nat attempt)) lt :=
fetchLoop attempt lastError with decide (Z.of_nat attempt <= maxRetries) => {
  | right _ => ([], after_loop lastError)
  | left _ with axios attempt => {
    | Resolved r => ([EvRequest attempt (Resolved r)], Return (resolved_result r))
    | Rejected e with e_response e => {
      | Some r =>
          ([EvRequest attempt (Rejected e)], Return (error_response_result e r))
      | None =>
          if Z.of_nat (S attempt) <=? maxRetries
          then prepend [EvRequest attempt (Rejected e);
                        EvSleep (backoff initialDelay (S attempt))]
                       (fetchLoop (S attempt) (Some e))
          else prepend [EvRequest attempt (Rejected e)]
                       (fetchLoop (S attempt) (Some e)) } } }.
Proof. all: lia. Qed.

Definition fetchWithRetry : list event * completion := fetchLoop 0%nat None.

End Loop.

End Fetcher.

(** ** lib/schema.js *)

Module Schema.

Record Field := mkField {
  name : string;
  type : string;
  sample : value
}.

Record Pagination := mkPagination {
  p_type : string;
  pageParam : option string;
  offsetParam : option string;
  limitParam : option string;
  metaPaths : option (list (string * string))
}.

Record Schema := mkSchema {
  samplePath : string;
  fields : list Field;
  pagination : option Pagination
}.

(** The [for (const key in obj)] loop of [findArrayPath]. *)
Fixpoint findArrayPath_loop (props : object) : option string :=
  match props with
  | [] => None
  | (key, v) :: rest =>
      match v with
      | VArr (_ :: _) => Some key
      | _ => findArrayPath_loop rest
      end
  end.

Definition findArrayPath (obj : value) : option string :=
  if Array_isArray obj then None
  else match obj with
       | VObj props => findArrayPath_loop props
       | _ => None
       end.

Definition inferType (v : value) : string :=
  match v with
  | VNull => "null"
  | VArr _ => "array"
  | VNum n => if Number_isInteger n then "integer" else "number"
  | _ => typeof v
  end.

Definition inferFields (sampleObj : value) : list Field :=
  match sampleObj with
  | VObj _ | VArr _ =>
      map (fun p => mkField (fst p) (inferType (snd p)) (snd p)) (for_in sampleObj)
  | _ => []
  end.

(** An entry of [fieldMap]: the [types] set keeps insertion order. *)
Record FieldInfo := mkFieldInfo {
  fi_name : string;
  fi_types : list string;
  fi_sample : value
}.

(** [Set.prototype.add] *)
Definition set_add (t : string) (ts : list string) : list string :=
  if existsb (String.eqb t) ts then ts else ts ++ [t].

(** [fieldMap.has(name)] *)
Definition map_has (fieldMap : list FieldInfo) (n : string) : bool :=
  existsb (fun fi => String.eqb (fi_name fi) n) fieldMap.

(** [fieldMap.get(name).types.add(t)] *)
Fixpoint map_add_type (fieldMap : list FieldInfo) (n t : string) : list FieldInfo :=
  match fieldMap with
  | [] => []
  | fi :: rest =>
      if String.eqb (fi_name fi) n
      then mkFieldInfo (fi_name fi) (set_add t (fi_types fi)) (fi_sample fi) :: rest
      else fi :: map_add_type rest n t
  end.

(** Body of the inner [fields.forEach]. *)
Definition merge_field (fieldMap : list FieldInfo) (f : Field) : list FieldInfo :=
  if map_has fieldMap (name f)
  then map_add_type fieldMap (name f) (type f)
  else fieldMap ++ [mkFieldInfo (name f) [type f] (sample f)].

(** Body of the outer [samples.forEach]. *)
Definition merge_sample (fieldMap : list FieldInfo) (s : value) : list FieldInfo :=
  fold_left merge_field (inferFields s) fieldMap.

(** [types.sort()]: the default comparison orders strings by code unit. *)
Fixpoint sort_insert (t : string) (ts : list string) : list string :=
  match ts with
  | [] => [t]
  | u :: rest => if String.leb t u then t :: ts else u :: sort_insert t rest
  end.

Definition Array_sort (ts : list string) : list string :=
  fold_right sort_insert [] ts.

Definition merged_type (types : list string) : string :=
  match types with
  | [t] => t
  | _ => String.concat "|" (Array_sort types)
  end.

Definition finish_field (fi : FieldInfo) : Field :=
  mkField (fi_name fi) (merged_type (fi_types fi)) (fi_sample fi).

Definition mergeFieldTypes (samples : list value) : list Field :=
  match samples with
  | [] => []
  | _ => map finish_field (fold_left merge_sample samples [])
  end.

Definition hasPage (v : object) : bool :=
  has_key "page" v || has_key "current_page" v || has_key "currentPage" v.
Definition hasPerPage (v : object) : bool :=
  has_key "per_page" v || has_key "page_size" v || has_key "perPage" v
  || has_key "pageSize" v.
Definition hasTotal (v : object) : bool :=
  has_key "total" v || has_key "total_count" v || has_key "totalCount" v.
Definition hasOffset (v : object) : bool := has_key "offset" v.
Definition hasLimit (v : object) : bool := has_key "limit" v.

Definition pageKey (v : object) : string :=
  if has_key "page" v then "page"
  else if has_key "current_page" v then "current_page" else "currentPage".
Definition perPageKey (v : object) : string :=
  if has_key "per_page" v then "per_page"
  else if has_key "page_size" v then "page_size"
  else if has_key "perPage" v then "perPage" else "pageSize".
Definition totalKey (v : object) : string :=
  if has_key "total" v then "total"
  else if has_key "total_count" v then "total_count" else "totalCount".

Definition dotted (key k : string) : string := key +:+ "." +:+ k.

Definition page_pagination (key : string) (v : object) : Pagination :=
  {| p_type := "page";
     pageParam := Some "page";
     offsetParam := None;
     limitParam := Some "limit";
     metaPaths := Some [("currentPage", dotted key (pageKey v));
                        ("perPage", dotted key (perPageKey v));
                        ("total", dotted key (totalKey v))] |}.

Definition offset_pagination (key : string) : Pagination :=
  {| p_type := "offset";
     pageParam := None;
     offsetParam := Some "offset";
     limitParam := Some "limit";
     metaPaths := Some [("offset", dotted key "offset");
                        ("limit", dotted key "limit");
                        ("total", dotted key "total")] |}.

(** The declared, and unused, list of container names. *)
Definition paginationKeys : list string :=
  ["meta"; "pagination"; "paging"; "page_info"].

(** What one iteration of the loop of [detectPagination] returns, if it
    returns. *)
Definition detect_in (key : string) (v : value) : option Pagination :=
  match v with
  | VObj inner =>
      if hasPage inner && (hasPerPage inner || hasTotal inner)
      then Some (page_pagination key inner)
      else if hasOffset inner && hasLimit inner
      then Some (offset_pagination key)
      else None
  | _ => None
  end.

Fixpoint detectPagination_loop (props : object) : option Pagination :=
  match props with
  | [] => None
  | (key, v) :: rest =>
      match detect_in key v with
      | Some p => Some p
      | None => detectPagination_loop rest
      end
  end.

Definition detectPagination (obj : value) : option Pagination :=
  match obj with
  | VObj _ | VArr _ => detectPagination_loop (for_in obj)
  | _ => None
  end.

(** [array.slice(0, Math.min(5, array.length))] *)
Definition slice5 (array : list value) : list value :=
  take (Nat.min 5 (length array)) array.

Definition inferSchema (data : value) : option Schema :=
  match data with
  | VUndefined | VNull => None
  | VArr [] => None
  | VArr items =>
      Some (mkSchema "$" (mergeFieldTypes (slice5 items)) None)
  | VObj props =>
      match findArrayPath data with
      | Some arrayKey =>
          if String.eqb arrayKey "" then None
          else match get_prop props arrayKey with
               | VArr array =>
                   Some (mkSchema ("$." +:+ arrayKey)
                                  (mergeFieldTypes (slice5 array))
                                  (detectPagination data))
               | _ => None
               end
      | None => None
      end
  | _ => None
  end.

End Schema.

(** ** lib/generator.js *)

Module Generator.

Import Schema.

Definition headers_map := list (string * string).

Definition SENSITIVE_HEADERS : list string :=
  ["authorization"; "api-key"; "api_key"; "apikey"; "x-api-key";
   "x-auth-token"; "token"; "secret"; "password"; "bearer"].

Definition lower_ascii (c : ascii) : ascii :=
  let n := nat_of_ascii c in
  if (65 <=? n)%nat && (n <=? 90)%nat then ascii_of_nat (n + 32) else c.

(** [String.prototype.toLowerCase] on an ASCII string: the letters A-Z
    are mapped to a-z.  For other characters the engine applies the Unicode
    case mapping, which the model does not describe. *)
Fixpoint toLowerCase (s : string) : string :=
  match s with
  | EmptyString => EmptyString
  | String c rest => String (lower_ascii c) (toLowerCase rest)
  end.

(** [s.includes(sub)] *)
Fixpoint includes (s sub : string) : bool :=
  String.prefix sub s
  || match s with
     | EmptyString => false
     | String _ rest => includes rest sub
     end.

Definition isSensitive (key : string) : bool :=
  let lowerKey := toLowerCase key in
  existsb (fun sensitive => includes lowerKey sensitive) SENSITIVE_HEADERS.

Definition MASKED : string := "<masked>".

(** Creating or overwriting the own property [key]. *)
Fixpoint set_property (masked : headers_map) (key v : string) : headers_map :=
  match masked with
  | [] => [(key, v)]
  | (k, x) :: rest =>
      if String.eqb k key then (k, v) :: rest
      else (k, x) :: set_property rest key v
  end.

(** [masked[key] = v] on the object created by [const masked = {}].  For
    the name [__proto__] the assignment reaches the accessor inherited from
    [Object.prototype]: its setter ignores a value that is neither an object
    nor [null] (a header value is a string), and no property is created. *)
Definition set_header (masked : headers_map) (key v : string) : headers_map :=
  if String.eqb key "__proto__" then masked else set_property masked key v.

Definition mask_step (masked : headers_map) (h : string * string) : headers_map :=
  set_header masked (fst h) (if isSensitive (fst h) then MASKED else snd h).

(** [None] stands for an argument that is falsy or not an object. *)
Definition maskSensitiveHeaders (headers : option headers_map) : headers_map :=
  match headers with
  | None => []
  | Some hs => fold_left mask_step hs []
  end.

(** The schema object handed to the generator; [None] is an absent
    property. *)
Record GenSchema := mkGenSchema {
  g_url : option string;
  g_fields : option (list Field);
  g_samplePath : option string;
  g_pagination : option Pagination;
  g_headers : option headers_map;
  g_queryParams : option (list (string * string))
}.

Record Opts := mkOpts { o_name : option string }.

Record DatasourceConfig := mkDatasource {
  ds_name : string;
  ds_type : string;
  ds_url : option string;
  ds_method : string;
  ds_headers : headers_map;
  ds_queryParams : list (string * string)
}.

Record DatasourceJSON := mkDatasourceJSON {
  dj_datasource : DatasourceConfig;
  dj_fields : list Field;
  dj_samplePath : string;
  dj_pagination : option Pagination
}.

Definition generateDatasourceJSON (schema : GenSchema) (opts : Opts)
  : DatasourceJSON :=
  let fields := default [] (g_fields schema) in
  let headers := default [] (g_headers schema) in
  let queryParams := default [] (g_queryParams schema) in
  let maskedHeaders := maskSensitiveHeaders (Some headers) in
  let datasource :=
    {| ds_name := or_default (o_name opts) "API Datasource";
       ds_type := "restapi";
       ds_url := g_url schema;
       ds_method := "GET";
       ds_headers := maskedHeaders;
       ds_queryParams := queryParams |} in
  {| dj_datasource := datasource;
     dj_fields := fields;
     dj_samplePath := or_default (g_samplePath schema) "$";
     dj_pagination := g_pagination schema |}.

Definition typeMap : list (string * string) :=
  [("integer", "number"); ("number", "number"); ("string", "text");
   ("boolean", "boolean"); ("object", "text"); ("array", "text");
   ("null", "text")].

(** [typeMap[t]] for a name that is not a member of [Object.prototype]
    (none of the type tags is). *)
Fixpoint typeMap_lookup (m : list (string * string)) (t : string) : option string :=
  match m with
  | [] => None
  | (k, v) :: rest => if String.eqb k t then Some v else typeMap_lookup rest t
  end.

Definition truthy (s : string) : bool := negb (String.eqb s "").

Definition mapFieldType (t : string) : string :=
  if truthy t && includes t "|" then "text"
  else or_default (typeMap_lookup typeMap t) "text".

Record Column := mkColumn {
  c_name : string;
  c_key : string;
  c_type : string;
  c_selector : string
}.

Record TableComponent := mkTable {
  t_component : string;
  t_dataBinding : string;
  t_columns : list Column
}.

Record PaginationComponent := mkPaginationComponent {
  pc_component : string;
  pc_type : string;
  pc_pageParam : string;
  pc_limitParam : string;
  pc_metaPaths : list (string * string)
}.

Record Components := mkComponents {
  table : TableComponent;
  c_pagination : option PaginationComponent
}.

Record Metadata := mkMetadata {
  m_samplePath : string;
  m_fieldCount : nat;
  m_hasPagination : bool
}.

Record ImportWrapper := mkWrapper {
  version : string;
  w_datasource : DatasourceConfig;
  components : Components;
  metadata : Metadata
}.

(** [s.replace('$', '')]: a string pattern replaces its first occurrence. *)
Fixpoint replace_dollar (s : string) : string :=
  match s with
  | EmptyString => EmptyString
  | String c rest =>
      if Ascii.eqb c "$" then rest else String c (replace_dollar rest)
  end.

Definition column_of (samplePath : string) (field : Field) : Column :=
  {| c_name := name field;
     c_key := name field;
     c_type := mapFieldType (type field);
     c_selector := samplePath +:+ "[]." +:+ name field |}.

Definition pagination_component (p : Pagination) : PaginationComponent :=
  {| pc_component := "Pagination";
     pc_type := p_type p;
     pc_pageParam := or_default (pageParam p) "page";
     pc_limitParam := or_default (limitParam p) "limit";
     pc_metaPaths := default [] (metaPaths p) |}.

Definition generateImportWrapper (schema : GenSchema) (opts : Opts)
  : ImportWrapper :=
  let fields := default [] (g_fields schema) in
  let samplePath := default "$" (g_samplePath schema) in
  let pagination := g_pagination schema in
  let datasourceConfig := generateDatasourceJSON schema opts in
  let columns := map (column_of samplePath) fields in
  {| version := "1.0.0";
     w_datasource := dj_datasource datasourceConfig;
     components :=
       {| table :=
            {| t_component := "Table";
               t_dataBinding :=
                 "{{datasource.data" +:+ replace_dollar samplePath +:+ "}}";
               t_columns := columns |};
          c_pagination :=
            match pagination with
            | Some p => Some (pagination_component p)
            | None => None
            end |};
     metadata :=
       {| m_samplePath := samplePath;
          m_fieldCount := length fields;
          m_hasPagination :=
            match pagination with Some _ => true | None => false end |} |}.

End Generator.

(** ** Specification vocabulary for the fetcher *)

Module FetcherSpec.

Import Fetcher.

(** Attempt [k] is the first one that receives a response, and it is [r]. *)
Definition first_response (axios : nat -> outcome) (k : nat) (r : response) : Prop :=
  received (axios k) = Some r /\ forall j, (j < k)%nat -> received (axios j) = None.

(** No attempt up to [maxRetries] receives a response. *)
Definition never_answers (axios : nat -> outcome) (maxRetries : Z) : Prop :=
  forall j, Z.of_nat j <= maxRetries -> received (axios j) = None.

Definition is_2xx (s : Z) : Prop := 200 <= s < 300.
Definition http_status (s : Z) : Prop := 100 <= s <= 599.

Definition is_resolved (o : outcome) : bool :=
  match o with Resolved _ => true | Rejected _ => false end.

(** The attempt numbers of the requests of a trace, and its sleeps. *)
Definition requests (tr : list event) : list nat :=
  omap (fun ev => match ev with EvRequest k _ => Some k | EvSleep _ => None end) tr.
Definition sleeps (tr : list event) : list Z :=
  omap (fun ev => match ev with EvSleep ms => Some ms | EvRequest _ _ => None end) tr.

(** Attempts [a .. a+m-1] fail without a response and each is followed by its
    backoff sleep. *)
Definition failed_attempts (axios : nat -> outcome) (initialDelay : Z) (a m : nat)
  : list event :=
  flat_map (fun j => [EvRequest j (axios j); EvSleep (backoff initialDelay (S j))])
           (seq a m).

(** The first request, then before each retry [k = 1 .. n] a wait of
    [initialDelay * 2^(k-1)]. *)
Definition backoff_schedule (axios : nat -> outcome) (initialDelay : Z) (n : nat)
  : list event :=
  EvRequest 0 (axios 0%nat)
  :: flat_map (fun k => [EvSleep (initialDelay * 2 ^ (Z.of_nat k - 1));
                         EvRequest k (axios k)])
              (seq 1 n).

(** The first sentence of the data model, read literally, at one call. *)
Definition error_status_is_failure (axios : nat -> outcome) (maxRetries initialDelay : Z)
  : Prop :=
  forall k r,
    Z.of_nat k <= maxRetries -> first_response axios k r ->
    http_status (r_status r) -> ~ is_2xx (r_status r) ->
    exists res,
      snd (fetchWithRetry axios maxRetries initialDelay) = Return res
      /\ success res = false
      /\ status res = r_status r
      /\ status res <> 0
      /\ errorType res = None.

Definition not_found : response := mkResponse 404 "Not Found" [] VNull.
Definition server_error : response := mkResponse 503 "Service Unavailable" [] VNull.
Definition refused : error := mkError "connect ECONNREFUSED" (Some "ECONNREFUSED") None.
Definition timed_out : error := mkError "timeout of 10000ms exceeded" None None.

Definition always_404 : nat -> outcome := fun _ => Resolved not_found.
Definition always_refused : nat -> outcome := fun _ => Rejected refused.
Definition refused_then_503 : nat -> outcome :=
  fun k => match k with O => Rejected refused | _ => Resolved server_error end.

End FetcherSpec.

(** ** Specification vocabulary for schema inference *)

Module SchemaSpec.

Import Schema.

(** A list without its repetitions, every element kept at the place where it
    is first seen. *)
Fixpoint first_seen (l : list string) : list string :=
  match l with
  | [] => []
  | x :: rest => x :: filter (fun y => y <> x) (first_seen rest)
  end.

(** Every field occurrence of the samples, in scanning order. *)
Definition occurrences (samples : list value) : list Field :=
  flat_map inferFields samples.

Definition occurrences_of (n : string) (occ : list Field) : list Field :=
  filter (fun g => name g = n) occ.

(** The distinct tags observed for field [n]. *)
Definition observed_tags (n : string) (occ : list Field) : list string :=
  first_seen (map type (occurrences_of n occ)).

Definition lex_sorted (l : list string) : Prop :=
  Sorted (fun a b => String.leb a b = true) l.

(** [f] is the first occurrence of its name in [occ]. *)
Definition first_occurrence (f : Field) (occ : list Field) : Prop :=
  exists before after,
    occ = before ++ f :: after /\ Forall (fun g => name g <> name f) before.

Definition mentions (s : value) (n : string) : Prop :=
  n ∈ map name (inferFields s).

(** What an entry of [fieldMap] holds once the occurrences [occ] have been
    scanned, and what the whole map holds. *)
Definition entry_ok (occ : list Field) (fi : FieldInfo) : Prop :=
  fi_types fi = observed_tags (fi_name fi) occ
  /\ exists f, first_occurrence f occ /\ name f = fi_name fi
                /\ fi_sample fi = sample f.

Definition represents (fieldMap : list FieldInfo) (occ : list Field) : Prop :=
  map fi_name fieldMap = first_seen (map name occ)
  /\ Forall (entry_ok occ) fieldMap.

Definition add_type_to (n t : string) (fi : FieldInfo) : FieldInfo :=
  if String.eqb (fi_name fi) n
  then mkFieldInfo (fi_name fi) (set_add t (fi_types fi)) (fi_sample fi)
  else fi.

Definition nonempty_array (v : value) : bool :=
  match v with VArr (_ :: _) => true | _ => false end.

(** Synonyms of the three page-based roles, in the order the code tries
    them. *)
Definition page_names : list string := ["page"; "current_page"; "currentPage"].
Definition per_page_names : list string :=
  ["per_page"; "page_size"; "perPage"; "pageSize"].
Definition total_names : list string := ["total"; "total_count"; "totalCount"].

Definition any_key (names : list string) (inner : object) : bool :=
  existsb (fun k => has_key k inner) names.

Definition page_signature (inner : object) : bool :=
  any_key page_names inner
  && (any_key per_page_names inner || any_key total_names inner).

Definition offset_signature (inner : object) : bool :=
  has_key "offset" inner && has_key "limit" inner.

(** A candidate container: a non-array object matching a signature. *)
Definition is_container (v : value) : bool :=
  match v with
  | VObj inner => page_signature inner || offset_signature inner
  | _ => false
  end.

(** The name recorded for a role: the first synonym the container has,
    and the last synonym when it has none of them. *)
Fixpoint recorded_name (names : list string) (inner : object) : string :=
  match names with
  | [] => ""
  | [k] => k
  | k :: rest => if has_key k inner then k else recorded_name rest inner
  end.

Definition expected_pagination (key : string) (inner : object) : Pagination :=
  if page_signature inner
  then {| p_type := "page";
          pageParam := Some "page";
          offsetParam := None;
          limitParam := Some "limit";
          metaPaths :=
            Some [("currentPage", dotted key (recorded_name page_names inner));
                  ("perPage", dotted key (recorded_name per_page_names inner));
                  ("total", dotted key (recorded_name total_names inner))] |}
  else {| p_type := "offset";
          pageParam := None;
          offsetParam := Some "offset";
          limitParam := Some "limit";
          metaPaths := Some [("offset", dotted key "offset");
                             ("limit", dotted key "limit");
                             ("total", dotted key "total")] |}.

(** "metaPaths record the actual <container>.<key> names found", read
    literally at one object: every recorded path names a key that the
    container really has. *)
Definition metaPaths_name_found_keys (obj : object) : Prop :=
  forall p paths role path,
    detectPagination (VObj obj) = Some p ->
    metaPaths p = Some paths ->
    In (role, path) paths ->
    exists key inner k,
      In (key, VObj inner) obj /\ has_key k inner = true /\ path = dotted key k.

Definition rename_keys (rename : string -> string) (props : object) : object :=
  map (fun kv => (rename (fst kv), snd kv)) props.

(** Sample inputs. *)
Definition num (z : Z) : value := VNum (int z).

Definition orders_page : value :=
  VObj [("orders", VArr [VObj [("id", num 1)]]);
        ("meta", VObj [("page", num 1); ("per_page", num 10); ("total", num 100)])].

Definition page_total_only : object :=
  [("orders", VArr [VObj [("id", num 1)]]);
   ("meta", VObj [("page", num 1); ("total", num 100)])].

Definition empty_key_payload : value :=
  VObj [("", VArr [VObj [("id", num 1)]])].

Definition mixed_samples : list value :=
  [VObj [("id", num 1); ("value", VStr "string")];
   VObj [("extra", VNull); ("id", num 2); ("value", num 42)];
   VObj [("id", num 3); ("value", VBool true)]].

End SchemaSpec.

(** ** Specification vocabulary for the generator *)

Module GeneratorSpec.

Import Schema Generator.

(** [s] contains [sub] as a substring. *)
Definition contains (s sub : string) : Prop :=
  exists pre post, s = pre +:+ sub +:+ post.

(** The denylist, as the specification gives it. *)
Definition denylist : list string :=
  ["authorization"; "api-key"; "api_key"; "apikey"; "x-api-key";
   "x-auth-token"; "token"; "secret"; "password"; "bearer"].

(** A capital ASCII letter. *)
Definition capital (c : ascii) : Prop :=
  (65 <= nat_of_ascii c <= 90)%nat.

(** Two characters that are equal, or the two cases of one ASCII letter. *)
Definition same_letter (a b : ascii) : Prop :=
  a = b
  \/ (capital a /\ nat_of_ascii b = (nat_of_ascii a + 32)%nat)
  \/ (capital b /\ nat_of_ascii a = (nat_of_ascii b + 32)%nat).

(** Two strings that are equal up to the case of their ASCII letters. *)
Fixpoint same_ignoring_case (s w : string) : Prop :=
  match s, w with
  | EmptyString, EmptyString => True
  | String a s', String b w' => same_letter a b /\ same_ignoring_case s' w'
  | _, _ => False
  end.

(** [key] contains [w], case-insensitively. *)
Definition mentions (key w : string) : Prop :=
  exists pre mid post, key = pre +:+ mid +:+ post /\ same_ignoring_case mid w.

(** A header name that contains, case-insensitively, a word of the
    denylist. *)
Definition sensitive_name (key : string) : Prop :=
  exists d, d ∈ denylist /\ mentions key d.

(** A name made of ASCII characters only, as the field names of HTTP are. *)
Fixpoint ascii_name (key : string) : Prop :=
  match key with
  | EmptyString => True
  | String c rest => (nat_of_ascii c < 128)%nat /\ ascii_name rest
  end.

Fixpoint no_capital (w : string) : Prop :=
  match w with
  | EmptyString => True
  | String c rest => ~ capital c /\ no_capital rest
  end.

(** What masking does to one header. *)
Definition mask_entry (h : string * string) : string * string :=
  (fst h, if isSensitive (fst h) then "<masked>" else snd h).

Definition sample_headers : headers_map :=
  [("Authorization", "Bearer xyz"); ("Content-Type", "application/json");
   ("X-Api-Key", "abc123")].

(** The headers of [JSON.parse('{"__proto__": "x", "Accept": "text/html"}')]. *)
Definition proto_headers : headers_map :=
  [("__proto__", "x"); ("Accept", "text/html")].

End GeneratorSpec.

(** ** Inputs of the repository's unit tests *)

Module TestData.

Import Schema Generator SchemaSpec.

Definition dec (m e : Z) : value := VNum (mkNumber m e).

Definition two_ids : value := VArr [VObj [("id", num 1)]; VObj [("id", num 2)]].

Definition several_arrays : value :=
  VObj [("meta", VObj [("total", num 100)]);
        ("orders", VArr [VObj [("id", num 1)]]);
        ("users", VArr [VObj [("id", num 2)]])].

Definition no_arrays : value :=
  VObj [("meta", VObj [("total", num 100)]); ("status", VStr "ok")].

Definition basic_sample : value :=
  VObj [("id", num 1); ("name", VStr "Test"); ("amount", dec 21 (-1));
        ("active", VBool true); ("data", VNull)].

Definition other_naming : value :=
  VObj [("data", VArr [VObj [("id", num 1)]]);
        ("pagination", VObj [("current_page", num 1); ("page_size", num 20);
                             ("total_count", num 200)])].

Definition offset_meta : value :=
  VObj [("items", VArr [VObj [("id", num 1)]]);
        ("meta", VObj [("offset", num 0); ("limit", num 10); ("total", num 100)])].

Definition scenario_1 : value :=
  VArr [VObj [("id", num 1); ("name", VStr "A")];
        VObj [("id", num 2); ("name", VStr "B")]].

Definition users_schema : GenSchema :=
  {| g_url := Some "http://api.example.com/users";
     g_fields := Some [mkField "id" "integer" (num 1);
                       mkField "email" "string" (VStr "user@example.com");
                       mkField "active" "boolean" (VBool true)];
     g_samplePath := None;
     g_pagination := None;
     g_headers := None;
     g_queryParams := None |}.

Definition page_only_schema : GenSchema :=
  {| g_url := Some "http://api.example.com/orders";
     g_fields := Some [mkField "id" "integer" VUndefined];
     g_samplePath := Some "$.orders";
     g_pagination := Some (mkPagination "page" None None None None);
     g_headers := Some [("Authorization", "Bearer secret-token")];
     g_queryParams := None |}.

End TestData.

(** ** lib/fetcher.js: the helpers beside [fetchWithRetry] *)

Module FetcherUtil.

Import Fetcher.

(** [errorType === s], where [errorType] may be [undefined]. *)
Definition is_code (errorType : option string) (s : string) : bool :=
  match errorType with
  | Some c => String.eqb c s
  | None => false
  end.

Definition hint_401 : string :=
  "Authentication failed. Check if your API key or token is correct and properly formatted in the Authorization header.".
Definition hint_403 : string :=
  "Access forbidden. Your credentials may be valid but lack permission to access this resource.".
Definition hint_404 : string :=
  "Resource not found. Verify the URL path is correct and the endpoint exists.".
Definition hint_429 : string :=
  "Rate limit exceeded. Wait before retrying or check your rate limit settings.".
Definition hint_5xx : string :=
  "Server error. The API is experiencing issues. Try again later or contact the API provider.".
Definition hint_connect : string :=
  "Cannot connect to server. Check if the URL is correct and the server is running.".
Definition hint_timeout : string :=
  "Request timed out. The server may be slow or unreachable.".
Definition hint_generic : string :=
  "Request failed. Check your URL, headers, and network connection.".

Definition generateHints (status : Z) (errorType : option string) : string :=
  if status =? 401 then hint_401
  else if status =? 403 then hint_403
  else if status =? 404 then hint_404
  else if status =? 429 then hint_429
  else if status >=? 500 then hint_5xx
  else if is_code errorType "ECONNREFUSED" || is_code errorType "NETWORK_ERROR"
  then hint_connect
  else if is_code errorType "ETIMEDOUT" || is_code errorType "ECONNABORTED"
  then hint_timeout
  else hint_generic.

Section Builtins.

(** [JSON.stringify(v, null, 2)]: a string, or [undefined] ([None]) for a
    value that has no JSON text.  [JSON.parse(s)] succeeding. *)
Variable JSON_stringify : value -> option string.
Variable JSON_parses : string -> bool.

(** [text.substring(0, n)] *)
Definition substring0 (text : string) (n : Z) : string :=
  String.substring 0 (Z.to_nat n) text.

(** [truncate(text, maxLength)]; [None] is the [TypeError] of reading
    [length] of [undefined]. *)
Definition truncate (text : value) (maxLength : Z) : option string :=
  let text' := match text with
               | VStr s => Some s
               | _ => JSON_stringify text
               end in
  match text' with
  | None => None
  | Some s =>
      if Z.of_nat (String.length s) <=? maxLength then Some s
      else Some (substring0 s maxLength +:+ "...")
  end.

(** [headers[name]] on a header map. *)
Fixpoint get_header (headers : list (string * string)) (name : string)
  : option string :=
  match headers with
  | [] => None
  | (k, v) :: rest => if String.eqb k name then Some v else get_header rest name
  end.

Definition isJsonResponse (data : value) (headers : list (string * string)) : bool :=
  let contentType := or_default (get_header headers "content-type") "" in
  if Generator.includes contentType "application/json" then true
  else if String.eqb (typeof data) "object"
          && negb (match data with VNull => true | _ => false end)
  then true
  else match data with
       | VStr s => JSON_parses s
       | _ => false
       end.

End Builtins.

End FetcherUtil.

(** ** Vocabulary for the further properties of the fetcher *)

Module FetcherMore.

Import Fetcher FetcherSpec.

(** Milliseconds slept during a run. *)
Definition total_sleep (tr : list event) : Z :=
  fold_right Z.add 0 (sleeps tr).

(** The caller's test for a network failure: [!response.success &&
    response.status === 0]. *)
Definition is_network_error (res : FetchResult) : bool :=
  negb (success res) && (status res =? 0).

(** The statuses that have a hint of their own. *)
Definition status_hinted (status : Z) : bool :=
  (status =? 401) || (status =? 403) || (status =? 404) || (status =? 429)
  || (status >=? 500).

End FetcherMore.

(** ** lib/generator.js: [generateFilename] *)

Module GeneratorFile.

Import Schema Generator.

Definition is_alnum (c : ascii) : bool :=
  let n := nat_of_ascii c in
  ((48 <=? n) && (n <=? 57) || (65 <=? n) && (n <=? 90)
   || (97 <=? n) && (n <=? 122))%nat.

(** [s] without its first [n] characters. *)
Fixpoint string_drop (n : nat) (s : string) : string :=
  match n, s with
  | S n', String _ rest => string_drop n' rest
  | _, _ => s
  end.

(** [s.replace(/https?:\/\//, '')]: the leftmost match is removed. *)
Fixpoint strip_protocol (s : string) : string :=
  if String.prefix "https://" s then string_drop 8 s
  else if String.prefix "http://" s then string_drop 7 s
  else match s with
       | EmptyString => EmptyString
       | String c rest => String c (strip_protocol rest)
       end.

(** [s.replace(/[^a-z0-9]/gi, '-')] *)
Fixpoint dash_non_alnum (s : string) : string :=
  match s with
  | EmptyString => EmptyString
  | String c rest =>
      String (if is_alnum c then c else "-"%char) (dash_non_alnum rest)
  end.

(** [s.replace(/[:.]/g, '-')] *)
Fixpoint dash_colon_dot (s : string) : string :=
  match s with
  | EmptyString => EmptyString
  | String c rest =>
      String (if Ascii.eqb c ":" || Ascii.eqb c "." then "-"%char else c)
             (dash_colon_dot rest)
  end.

(** [s.split('T')[0]] *)
Fixpoint before_T (s : string) : string :=
  match s with
  | EmptyString => EmptyString
  | String c rest => if Ascii.eqb c "T" then EmptyString else String c (before_T rest)
  end.

Definition sanitizedUrl (schema : GenSchema) : string :=
  String.substring 0 50
    (dash_non_alnum (strip_protocol (or_default (g_url schema) "datasource"))).

(** [now] is the value of [new Date().toISOString()]. *)
Definition generateFilename (now : string) (schema : GenSchema) : string :=
  let timestamp := before_T (dash_colon_dot now) in
  "tooljet-" +:+ sanitizedUrl schema +:+ "-" +:+ timestamp +:+ ".json".

End GeneratorFile.

(** ** Vocabulary for the further properties of inference and generation *)

Module PipelineSpec.

Import Schema Generator SchemaSpec GeneratorSpec.

(** Cut an array down to its first five elements. *)
Definition first_five (v : value) : value :=
  match v with
  | VArr items => VArr (take 5 items)
  | _ => v
  end.

(** The same for the top-level array, or for every array-valued property of
    a top-level object. *)
Definition trim_records (data : value) : value :=
  match data with
  | VArr _ => first_five data
  | VObj props => VObj (map (fun kv => (fst kv, first_five (snd kv))) props)
  | _ => data
  end.

(** The schema object the front end posts to [/api/generate] after a test
    of [url] returned [s] ([handleGenerateToolJet]). *)
Definition generate_request (url : string) (s : Schema) : GenSchema :=
  {| g_url := Some url;
     g_fields := Some (fields s);
     g_samplePath := Some (samplePath s);
     g_pagination := pagination s;
     g_headers := None;
     g_queryParams := None |}.

Definition ui_types : list string := ["number"; "text"; "boolean"].

(** The tags [inferType] can return. *)
Definition type_tags : list string :=
  ["null"; "array"; "integer"; "number"; "undefined"; "boolean"; "string";
   "object"].

(** The (name, type) pairs of a field list. *)
Definition typed_names (fs : list Field) : list (string * string) :=
  map (fun f => (name f, type f)) fs.

(** What the first scan of a field stores in [fieldMap]. *)
Definition new_entry (f : Field) : FieldInfo :=
  mkFieldInfo (name f) [type f] (sample f).

Definition string_chars (s : string) : list ascii := String.list_ascii_of_string s.

End PipelineSpec.

(** ** routes/test.js: the [POST /api/test] handler *)

Module TestRoute.

Import Fetcher FetcherSpec FetcherUtil FetcherMore Schema.

(** The argument of a [saveApiTest] call.  [saveApiTest] catches every
    error of the database layer itself, so a call never throws. *)
Record TestData := mkTestData {
  td_url : string;
  td_headers : list (string * string);
  td_queryParams : list (string * string);
  td_success : bool;
  td_status : Z;
  td_responseTime : Z;
  td_errorMessage : option string;
  td_schema : option Schema
}.

(** The JSON bodies the handler answers with, one constructor per
    [res.status(..).json({...})] of the source.  The fixed [message] and
    [hints] texts of a branch are part of its constructor; the message of
    the [catch] branch quotes the engine's error text and is left out. *)
Inductive TestReply :=
| UrlRequired
| InvalidUrl
| NetworkFailure (message hints : string) (errorType : option string)
| NonJson (status : Z) (contentType : option string) (rawSnippet : string)
| NoSchema (status : Z) (rawSnippet : string)
| Inferred (status : Z) (schema : Schema) (sample : string)
| HttpFailure (status : Z) (message hints rawSnippet : string)
| Unexpected.

(** The [ok] field of a body. *)
Definition ok (body : TestReply) : bool :=
  match body with
  | Inferred _ _ _ => true
  | _ => false
  end.

Record Handled := mkHandled {
  http : Z;                    (* the status code of the reply *)
  body : TestReply;
  saved : list TestData;       (* the [saveApiTest] calls, in order *)
  performed : list event       (* the requests and sleeps of the fetcher *)
}.

Section Handler.

(** [new URL(url)] succeeding, [JSON.stringify(v)], [JSON.stringify(v, null, 2)]
    ([None] for [undefined]), [JSON.parse(s)] succeeding, and the measured
    [Date.now() - startTime]. *)
Variable URL_valid : string -> bool.
Variable JSON_stringify : value -> option string.
Variable JSON_stringify_indented : value -> option string.
Variable JSON_parses : string -> bool.
Variable responseTime : Z.

Definition of_undefined (s : option string) : value :=
  match s with
  | Some s => VStr s
  | None => VUndefined
  end.

(** [`${s}`] for a string that may be [undefined]. *)
Definition template (s : option string) : string :=
  match s with
  | Some s => s
  | None => "undefined"
  end.

Definition http_message (response : FetchResult) : string :=
  "HTTP " +:+ pretty (status response) +:+ ": "
  +:+ or_default (statusText response) "Request failed".

(** The body of the [try] block once [fetchWithRetry] has returned: the
    status code, the body and the [saveApiTest] calls made.  An exception
    in it ([headers] or [text] being [undefined]) leads to the [catch]
    branch, after the calls already made. *)
Definition respond (url : string) (reqHeaders queryParams : list (string * string))
    (response : FetchResult) : Z * TestReply * list TestData :=
  let data := default VUndefined (data response) in
  if is_network_error response then
    (200,
     NetworkFailure ("Network error: " +:+ template (error_message response))
                    (generateHints 0 (errorType response))
                    (errorType response),
     [mkTestData url reqHeaders queryParams false 0 responseTime
                 (error_message response) None])
  else if (status response >=? 200) && (status response <? 300) then
    match headers response with
    | None => (500, Unexpected, [])
    | Some hs =>
        if negb (isJsonResponse JSON_parses data hs) then
          match truncate JSON_stringify_indented data 500 with
          | Some snippet =>
              (200, NonJson (status response) (get_header hs "content-type") snippet, [])
          | None => (500, Unexpected, [])
          end
        else
          match inferSchema data with
          | None =>
              match truncate JSON_stringify_indented data 500 with
              | Some snippet => (200, NoSchema (status response) snippet, [])
              | None => (500, Unexpected, [])
              end
          | Some schema =>
              let call := mkTestData url reqHeaders queryParams true (status response)
                                     responseTime None (Some schema) in
              match truncate JSON_stringify_indented
                             (of_undefined (JSON_stringify data)) 1000 with
              | Some sample => (200, Inferred (status response) schema sample, [call])
              | None => (500, Unexpected, [call])
              end
          end
    end
  else
    let call := mkTestData url reqHeaders queryParams false (status response)
                           responseTime (Some (http_message response)) None in
    match truncate JSON_stringify_indented data 500 with
    | Some snippet =>
        (200,
         HttpFailure (status response) (http_message response)
                     (generateHints (status response) None) snippet,
         [call])
    | None => (500, Unexpected, [call])
    end.

(** [router.post('/test', ...)] on a body whose [url] is absent or a string;
    [reqHeaders] and [queryParams] are the body's, [{}] when absent. *)
Definition test_route (url : option string) (reqHeaders queryParams : list (string * string))
    (axios : nat -> outcome) : Handled :=
  match url with
  | None => mkHandled 400 UrlRequired [] []
  | Some u =>
      if negb (Generator.truthy u) then mkHandled 400 UrlRequired [] []
      else if negb (URL_valid u) then mkHandled 400 InvalidUrl [] []
      else
        let run := fetchWithRetry axios 2 500 in
        match snd run with
        | ThrowTypeError => mkHandled 500 Unexpected [] (fst run)
        | Return response =>
            let '(code, reply, calls) := respond u reqHeaders queryParams response in
            mkHandled code reply calls (fst run)
        end
  end.

End Handler.

(** What the fetcher returns for an attempt that received response [r]. *)
Definition result_of (o : outcome) (r : response) : FetchResult :=
  match o with
  | Resolved _ => resolved_result r
  | Rejected e => error_response_result e r
  end.

Definition is_network_failure (body : TestReply) : bool :=
  match body with
  | NetworkFailure _ _ _ => true
  | _ => false
  end.

(** The replies that come with a [saveApiTest] call in the source. *)
Definition recorded (b : TestReply) : bool :=
  match b with
  | NetworkFailure _ _ _ | Inferred _ _ _ | HttpFailure _ _ _ _ => true
  | _ => false
  end.

(** A function with the one property assumed of [JSON.stringify]: only
    [undefined] has no text. *)
Definition stringify_example (v : value) : option string :=
  match v with
  | VUndefined => None
  | _ => Some "{}"
  end.

(** A 200 answer with a JSON list of orders. *)
Definition ok_orders : response :=
  mkResponse 200 "OK" [("content-type", "application/json")]
             (VObj [("orders", VArr [VObj [("id", VNum (int 1))]])]).

End TestRoute.

(** ** mock-server/app.js: the paginated [GET /orders] endpoint *)

Module MockServer.

(** [Array.prototype.slice(start, end)] *)
Definition relative_index (len i : Z) : Z :=
  if i <? 0 then Z.max (len + i) 0 else Z.min i len.

Definition slice {A} (l : list A) (start end_ : Z) : list A :=
  let len := Z.of_nat (length l) in
  let k := relative_index len start in
  let final := relative_index len end_ in
  take (Z.to_nat (final - k)) (drop (Z.to_nat k) l).

(** [parseInt(s) || d], given what [parseInt] returned ([None] for [NaN]). *)
Definition or_number (parsed : option Z) (d : Z) : Z :=
  match parsed with
  | Some n => if n =? 0 then d else n
  | None => d
  end.

(** [Math.ceil(a / b)] for integers, [b <> 0]. *)
Definition ceil_div (a b : Z) : Z := - ((- a) / b).

(** [requireAuth]: does the request go on to the handler? *)
Definition requireAuth (authorization : option string) : bool :=
  match authorization with
  | None => false
  | Some authHeader =>
      Generator.truthy authHeader && String.prefix "Bearer " authHeader
  end.

Section Orders.

Variable mockOrders : list value.

Definition paginatedOrders (page limit : Z) : list value :=
  let startIndex := (page - 1) * limit in
  let endIndex := startIndex + limit in
  slice mockOrders startIndex endIndex.

Definition total_pages (limit : Z) : Z :=
  ceil_div (Z.of_nat (length mockOrders)) limit.

(** [app.get('/orders', requireAuth, ...)]: the status code and the object
    given to [res.json]. *)
Definition get_orders (authorization : option string) (query_page query_limit : option Z)
  : Z * value :=
  if negb (requireAuth authorization) then
    (401, VObj [("error", VStr "Unauthorized")])
  else
    let page := or_number query_page 1 in
    let limit := or_number query_limit 10 in
    (200,
     VObj [("orders", VArr (paginatedOrders page limit));
           ("meta", VObj [("page", VNum (int page));
                          ("per_page", VNum (int limit));
                          ("total", VNum (int (Z.of_nat (length mockOrders))));
                          ("total_pages", VNum (int (total_pages limit)))])]).

End Orders.


End MockServer.

(** * Properties of the fetcher *)

Section FetcherFacts.

Import Fetcher FetcherSpec.

Variable axios : nat -> outcome.
Variables maxRetries initialDelay : Z.

Local Abbreviation loop := (fetchLoop axios maxRetries initialDelay).

Lemma fetchLoop_exit a le :
  ~ Z.of_nat a <= maxRetries -> loop a le = ([], after_loop le).
Proof.
  intros H. rewrite fetchLoop_equation_1.
  destruct (decide _); [lia | reflexivity].
Qed.

Lemma fetchLoop_resolved a le r :
  Z.of_nat a <= maxRetries -> axios a = Resolved r ->
  loop a le = ([EvRequest a (Resolved r)], Return (resolved_result r)).
Proof.
  intros H E. rewrite fetchLoop_equation_1.
  destruct (decide _); [| lia]. simpl. rewrite E. reflexivity.
Qed.

Lemma fetchLoop_error_response a le e r :
  Z.of_nat a <= maxRetries -> axios a = Rejected e -> e_response e = Some r ->
  loop a le = ([EvRequest a (Rejected e)], Return (error_response_result e r)).
Proof.
  intros H E R. rewrite fetchLoop_equation_1.
  destruct (decide _); [| lia]. simpl. rewrite E. simpl. rewrite R. reflexivity.
Qed.

Lemma fetchLoop_retry a le e :
  Z.of_nat a <= maxRetries -> axios a = Rejected e -> e_response e = None ->
  loop a le =
    prepend (EvRequest a (Rejected e)
             :: if Z.of_nat (S a) <=? maxRetries
                then [EvSleep (backoff initialDelay (S a))] else [])
            (loop (S a) (Some e)).
Proof.
  intros H E R. rewrite fetchLoop_equation_1.
  destruct (decide _); [| lia]. simpl. rewrite E. simpl. rewrite R. simpl.
  destruct (_ <=? _); reflexivity.
Qed.

(** The four ways one iteration can go. *)
Lemma fetchLoop_cases a le :
  (~ Z.of_nat a <= maxRetries /\ loop a le = ([], after_loop le))
  \/ (Z.of_nat a <= maxRetries /\ exists r, axios a = Resolved r
      /\ loop a le = ([EvRequest a (Resolved r)], Return (resolved_result r)))
  \/ (Z.of_nat a <= maxRetries /\ exists e r, axios a = Rejected e
      /\ e_response e = Some r
      /\ loop a le = ([EvRequest a (Rejected e)], Return (error_response_result e r)))
  \/ (Z.of_nat a <= maxRetries /\ exists e, axios a = Rejected e
      /\ e_response e = None
      /\ loop a le =
           prepend (EvRequest a (Rejected e)
                    :: if Z.of_nat (S a) <=? maxRetries
                       then [EvSleep (backoff initialDelay (S a))] else [])
                   (loop (S a) (Some e))).
Proof.
  destruct (decide (Z.of_nat a <= maxRetries)) as [H | H].
  - right. destruct (axios a) as [r | e] eqn:E.
    + left. eauto using fetchLoop_resolved.
    + destruct (e_response e) as [r |] eqn:R.
      * right; left. split; [done |]. exists e, r. eauto using fetchLoop_error_response.
      * right; right. split; [done |]. exists e. eauto using fetchLoop_retry.
  - left. eauto using fetchLoop_exit.
Qed.

(** A request that got a response is the last event of the run, and the
    run returns that response's status. *)
Lemma fetchLoop_response_is_last n :
  forall a le pre j o post r,
    (Z.to_nat (maxRetries + 1 - Z.of_nat a) <= n)%nat ->
    fst (loop a le) = pre ++ EvRequest j o :: post ->
    received o = Some r ->
    post = []
    /\ exists res, snd (loop a le) = Return res
                   /\ status res = r_status r /\ errorType res = None
                   /\ success res = is_resolved o.
Proof.
  induction n as [| n IH]; intros a le pre j o post r Hn Htr Hr;
    destruct (fetchLoop_cases a le)
      as [[Hgt E] | [[Hle (r0 & Ha & E)] | [[Hle (e & r0 & Ha & He & E)]
                                           | [Hle (e & Ha & He & E)]]]];
    try lia; rewrite E in Htr |- *; simpl in Htr.
  all: try (by destruct pre).
  all: try (destruct pre as [| ? [| ? ?]]; simplify_eq/=;
            split; [done |]; eexists; split; [done |]; by rewrite ?He in * ).
  destruct pre as [| ev pre]; [simplify_eq/=; congruence |].
  injection Htr as _ Htr. simpl.
  destruct (Z.of_nat (S a) <=? maxRetries); simpl in Htr.
  - destruct pre as [| ev' pre]; [discriminate |]. injection Htr as _ Htr.
    eapply IH; [lia | done | done].
  - eapply IH; [lia | done | done].
Qed.

Lemma failed_attempts_S a m :
  failed_attempts axios initialDelay a (S m) =
  [EvRequest a (axios a); EvSleep (backoff initialDelay (S a))]
  ++ failed_attempts axios initialDelay (S a) m.
Proof. reflexivity. Qed.

(** Attempts before the first response are retried with their backoff;
    the attempt that gets the response ends the run. *)
Lemma fetchLoop_until_response m :
  forall a le r,
    Z.of_nat (a + m) <= maxRetries ->
    received (axios (a + m)%nat) = Some r ->
    (forall j, (a <= j < a + m)%nat -> received (axios j) = None) ->
    fst (loop a le) =
      failed_attempts axios initialDelay a m ++ [EvRequest (a + m) (axios (a + m)%nat)].
Proof.
  induction m as [| m IH]; intros a le r Hle Hr Hfail.
  - rewrite Nat.add_0_r in *. simpl.
    destruct (fetchLoop_cases a le)
      as [[Hgt E] | [[_ (r0 & Ha & E)] | [[_ (e & r0 & Ha & He & E)]
                                         | [_ (e & Ha & He & E)]]]];
      try lia; rewrite E, Ha; try done.
    rewrite Ha in Hr. simpl in Hr. congruence.
  - assert (Hnone : received (axios a) = None) by (apply Hfail; lia).
    destruct (fetchLoop_cases a le)
      as [[Hgt E] | [[_ (r0 & Ha & E)] | [[_ (e & r0 & Ha & He & E)]
                                         | [_ (e & Ha & He & E)]]]];
      try lia; rewrite Ha in Hnone; simpl in Hnone; try congruence.
    rewrite E, failed_attempts_S, Ha. simpl.
    destruct (Z.leb_spec (Z.of_nat (S a)) maxRetries); [| lia]. simpl.
    rewrite (IH (S a) (Some e) r); rewrite ?Nat.add_succ_comm; try done.
    intros j Hj. apply Hfail. lia.
Qed.

(** When nobody ever answers, every attempt up to [maxRetries] is made and
    the last error is reported. *)
Lemma fetchLoop_exhausted m :
  forall a le,
    Z.of_nat (a + m) = maxRetries ->
    never_answers axios maxRetries ->
    exists e, axios (a + m)%nat = Rejected e
      /\ loop a le =
           (failed_attempts axios initialDelay a m
              ++ [EvRequest (a + m) (axios (a + m)%nat)],
            Return (exhausted_result e)).
Proof.
  induction m as [| m IH]; intros a le Hm Hfail.
  - rewrite Nat.add_0_r in *.
    assert (Hnone : received (axios a) = None) by (apply Hfail; lia).
    destruct (fetchLoop_cases a le)
      as [[Hgt E] | [[_ (r0 & Ha & E)] | [[_ (e & r0 & Ha & He & E)]
                                         | [_ (e & Ha & He & E)]]]];
      try lia; rewrite Ha in Hnone; simpl in Hnone; try congruence.
    exists e. split; [done |]. rewrite E, Ha.
    destruct (Z.leb_spec (Z.of_nat (S a)) maxRetries); [lia |].
    rewrite fetchLoop_exit by lia. reflexivity.
  - assert (Hnone : received (axios a) = None) by (apply Hfail; lia).
    destruct (fetchLoop_cases a le)
      as [[Hgt E] | [[_ (r0 & Ha & E)] | [[_ (e & r0 & Ha & He & E)]
                                         | [_ (e & Ha & He & E)]]]];
      try lia; rewrite Ha in Hnone; simpl in Hnone; try congruence.
    destruct (IH (S a) (Some e)) as (e' & He' & E'); [lia | done |].
    rewrite Nat.add_succ_comm in He', E'.
    exists e'. split; [done |]. rewrite E, E', failed_attempts_S, Ha.
    destruct (Z.leb_spec (Z.of_nat (S a)) maxRetries); [| lia]. reflexivity.
Qed.

Lemma failed_attempts_schedule m :
  forall a,
    failed_attempts axios initialDelay a m ++ [EvRequest (a + m) (axios (a + m)%nat)]
    = EvRequest a (axios a)
      :: flat_map (fun k => [EvSleep (initialDelay * 2 ^ (Z.of_nat k - 1));
                             EvRequest k (axios k)])
                  (seq (S a) m).
Proof.
  induction m as [| m IH]; intros a.
  - simpl. by rewrite Nat.add_0_r.
  - rewrite failed_attempts_S. simpl. f_equal. f_equal.
    rewrite <- Nat.add_succ_comm. apply (IH (S a)).
Qed.

Lemma requests_schedule m a :
  requests (flat_map (fun k => [EvSleep (initialDelay * 2 ^ (Z.of_nat k - 1));
                                EvRequest k (axios k)]) (seq a m))
  = seq a m.
Proof. revert a. induction m as [| m IH]; intros a; simpl; [done |]. by rewrite IH. Qed.

Lemma sleeps_schedule m a :
  sleeps (flat_map (fun k => [EvSleep (initialDelay * 2 ^ (Z.of_nat k - 1));
                              EvRequest k (axios k)]) (seq a m))
  = map (fun k => initialDelay * 2 ^ (Z.of_nat k - 1)) (seq a m).
Proof. revert a. induction m as [| m IH]; intros a; simpl; [done |]. by rewrite IH. Qed.

End FetcherFacts.

Section FetcherClaims.

Import Fetcher FetcherSpec.

(** Supporting fact: the run up to the first response. *)
Lemma fetchWithRetry_until_response axios maxRetries initialDelay k r :
  Z.of_nat k <= maxRetries ->
  first_response axios k r ->
  fst (fetchWithRetry axios maxRetries initialDelay)
  = failed_attempts axios initialDelay 0 k ++ [EvRequest k (axios k)].
Proof.
  intros Hk [Hr Hbefore]. unfold fetchWithRetry.
  apply (fetchLoop_until_response axios maxRetries initialDelay k 0 None r);
    [done | done |].
  intros j Hj. apply Hbefore. lia.
Qed.

(** C1, as the code has it: when an attempt receives a response, the result
    carries the received status code and no [errorType], so it is not a
    network error (a real HTTP status is never 0); [success] is [true]
    when the request promise resolved, whatever the status, and [false]
    only when the request was rejected with a response attached. *)
Theorem fetch_response_reported axios maxRetries initialDelay k r :
  Z.of_nat k <= maxRetries ->
  first_response axios k r ->
  exists res,
    snd (fetchWithRetry axios maxRetries initialDelay) = Return res
    /\ status res = r_status r
    /\ errorType res = None
    /\ (http_status (r_status r) -> status res <> 0)
    /\ success res = is_resolved (axios k).
Proof.
  intros Hk Hfirst.
  pose proof (fetchWithRetry_until_response axios maxRetries initialDelay k r
                Hk Hfirst) as Htr.
  destruct Hfirst as [Hr _].
  destruct (fetchLoop_response_is_last axios maxRetries initialDelay
              (Z.to_nat (maxRetries + 1)) 0 None
              (failed_attempts axios initialDelay 0 k) k (axios k) [] r)
    as (_ & res & Hres & Hst & Hty & Hsu); [lia | exact Htr | exact Hr |].
  exists res. repeat split; try done.
  unfold http_status. intros ?. lia.
Qed.

(** A refused connection, then a 503 on the first retry. *)
Lemma fetch_response_reported_witness :
  exists res,
    snd (fetchWithRetry refused_then_503 2 500) = Return res
    /\ status res = 503
    /\ errorType res = None
    /\ (http_status 503 -> status res <> 0)
    /\ success res = true.
Proof.
  apply (fetch_response_reported refused_then_503 2 500 1 server_error).
  - lia.
  - split; [reflexivity |]. intros [| j] Hj; [reflexivity | lia].
Defined.

(** C1 as stated fails: a 404 answer is returned with [success = true]. *)
Lemma error_status_is_failure_counterexample :
  ~ error_status_is_failure always_404 2 500.
Proof.
  intros H.
  destruct (H 0%nat not_found) as (res & Hres & Hsucc & _).
  - lia.
  - split; [reflexivity |]. intros j Hj. lia.
  - unfold http_status. simpl. lia.
  - unfold is_2xx. simpl. lia.
  - vm_compute in Hres. injection Hres as <-. discriminate Hsucc.
Qed.

(** C2: when no attempt ever receives a response, exactly [maxRetries + 1]
    requests are made, the wait before retry [k] is
    [initialDelay * 2^(k-1)] for [k = 1 .. maxRetries], and the result has
    [success = false], [status = 0], the last error's message and its
    classified code. *)
Theorem fetch_exhausts_retries axios maxRetries initialDelay :
  0 <= maxRetries ->
  never_answers axios maxRetries ->
  let run := fetchWithRetry axios maxRetries initialDelay in
  let n := Z.to_nat maxRetries in
  fst run = backoff_schedule axios initialDelay n
  /\ requests (fst run) = seq 0 (S n)
  /\ Z.of_nat (length (requests (fst run))) = maxRetries + 1
  /\ sleeps (fst run)
     = map (fun k => initialDelay * 2 ^ (Z.of_nat k - 1)) (seq 1 n)
  /\ exists e res,
       axios n = Rejected e
       /\ snd run = Return res
       /\ success res = false
       /\ status res = 0
       /\ error_message res = Some (e_message e)
       /\ errorType res = Some (or_default (e_code e) "NETWORK_ERROR").
Proof.
  intros Hpos Hnever run n.
  destruct (fetchLoop_exhausted axios maxRetries initialDelay n 0 None)
    as (e & He & Hrun); [lia | done |].
  pose proof (failed_attempts_schedule axios initialDelay n 0) as Hsched.
  rewrite Nat.add_0_l in He, Hrun, Hsched. rewrite Hsched in Hrun.
  fold (backoff_schedule axios initialDelay n) in Hrun.
  assert (Htr : fst run = backoff_schedule axios initialDelay n)
    by (subst run; unfold fetchWithRetry; by rewrite Hrun).
  assert (Hreq : requests (fst run) = seq 0 (S n)).
  { rewrite Htr. unfold backoff_schedule. simpl. f_equal.
    apply requests_schedule. }
  repeat split; try done.
  - rewrite Hreq, length_seq. lia.
  - rewrite Htr. unfold backoff_schedule. simpl. apply sleeps_schedule.
  - exists e, (exhausted_result e). repeat split; try done.
    subst run. unfold fetchWithRetry. by rewrite Hrun.
Qed.

(** Scenario 4 of the specification: [maxRetries = 2], [initialDelay = 500],
    nobody answers; the retries wait 500 ms and 1000 ms. *)
Lemma fetch_exhausts_retries_witness :
  let run := fetchWithRetry always_refused 2 500 in
  fst run = backoff_schedule always_refused 500 2
  /\ requests (fst run) = [0; 1; 2]%nat
  /\ Z.of_nat (length (requests (fst run))) = 3
  /\ sleeps (fst run) = [500; 1000]
  /\ exists e res,
       always_refused 2%nat = Rejected e
       /\ snd run = Return res
       /\ success res = false
       /\ status res = 0
       /\ error_message res = Some (e_message e)
       /\ errorType res = Some (or_default (e_code e) "NETWORK_ERROR").
Proof.
  apply (fetch_exhausts_retries always_refused 2 500).
  - lia.
  - intros j _. reflexivity.
Defined.

(** C3: a request that received a response, whatever its status, is the
    last event of the run: no sleep and no further request follows it, and
    the function returns. *)
Theorem no_retry_after_response axios maxRetries initialDelay pre j o post :
  fst (fetchWithRetry axios maxRetries initialDelay) = pre ++ EvRequest j o :: post ->
  is_Some (received o) ->
  post = []
  /\ exists res, snd (fetchWithRetry axios maxRetries initialDelay) = Return res.
Proof.
  intros Htr [r Hr].
  destruct (fetchLoop_response_is_last axios maxRetries initialDelay
              (Z.to_nat (maxRetries + 1)) 0 None pre j o post r)
    as (Hpost & res & Hres & _); [lia | exact Htr | exact Hr |].
  split; [exact Hpost | by exists res].
Qed.

(** The 503 received by the first retry ends the run. *)
Lemma no_retry_after_response_witness :
  (@nil event) = []
  /\ exists res, snd (fetchWithRetry refused_then_503 2 500) = Return res.
Proof.
  apply (no_retry_after_response refused_then_503 2 500
           [EvRequest 0 (Rejected refused); EvSleep 500] 1
           (Resolved server_error) []).
  - vm_compute. reflexivity.
  - by eexists.
Defined.

(** With a negative [maxRetries] the loop body never runs and reading
    [lastError.message] throws. *)
Lemma fetch_negative_retries_throws axios maxRetries initialDelay :
  maxRetries < 0 ->
  fetchWithRetry axios maxRetries initialDelay = ([], ThrowTypeError).
Proof.
  intros H. unfold fetchWithRetry.
  apply (fetchLoop_exit axios maxRetries initialDelay 0 None). lia.
Qed.

End FetcherClaims.

(** * Properties of schema inference *)

Section ListFacts.

Import SchemaSpec.

Lemma map_is_fmap {A B} (f : A -> B) (l : list A) : map f l = f <$> l.
Proof. reflexivity. Qed.

Lemma existsb_eqb_elem_of (t : string) (ts : list string) :
  existsb (String.eqb t) ts = true <-> t ∈ ts.
Proof.
  rewrite existsb_exists. split.
  - intros (x & Hin & Heq). apply String.eqb_eq in Heq as ->.
    by apply list_elem_of_In.
  - intros Hin. exists t. split; [by apply list_elem_of_In | apply String.eqb_refl].
Qed.

Lemma elem_of_first_seen l x : x ∈ first_seen l <-> x ∈ l.
Proof.
  induction l as [| a l IH]; simpl; [done |].
  rewrite !elem_of_cons, list_elem_of_filter, IH.
  destruct (decide (x = a)); naive_solver.
Qed.

Lemma NoDup_first_seen l : NoDup (first_seen l).
Proof.
  induction l as [| a l IH]; simpl; [constructor |].
  apply NoDup_cons. split.
  - rewrite list_elem_of_filter. naive_solver.
  - by apply NoDup_filter.
Qed.

(** Scanning one more element adds it at the end exactly when it is new. *)
Lemma first_seen_snoc l x :
  first_seen (l ++ [x]) = if decide (x ∈ l) then first_seen l else first_seen l ++ [x].
Proof.
  induction l as [| a l IH]; simpl; [done |].
  rewrite IH. destruct (decide (x ∈ l)) as [Hin | Hout].
  - rewrite decide_True by (apply elem_of_cons; by right). done.
  - rewrite filter_app. destruct (decide (x = a)) as [-> | Hne].
    + rewrite decide_True by (apply elem_of_cons; by left).
      rewrite filter_cons_False by naive_solver. by rewrite filter_nil, app_nil_r.
    + rewrite decide_False by (rewrite elem_of_cons; naive_solver).
      by rewrite filter_cons_True, filter_nil.
Qed.

Lemma first_seen_all_equal l t :
  l <> [] -> Forall (fun u => u = t) l -> first_seen l = [t].
Proof.
  induction l as [| a l IH]; [done |]. intros _ Hall.
  apply Forall_cons in Hall as [-> Hall]. simpl.
  destruct l as [| b l]; [done |].
  rewrite IH by done. by rewrite filter_cons_False, filter_nil by naive_solver.
Qed.

Lemma sort_insert_Permutation t ts : Permutation (Schema.sort_insert t ts) (t :: ts).
Proof.
  induction ts as [| u ts IH]; simpl; [done |].
  destruct (String.leb t u); [done |].
  rewrite IH. apply perm_swap.
Qed.

Lemma Array_sort_Permutation ts : Permutation (Schema.Array_sort ts) ts.
Proof.
  induction ts as [| t ts IH]; simpl; [done |].
  rewrite sort_insert_Permutation. by constructor.
Qed.

Lemma sort_insert_sorted t ts : lex_sorted ts -> lex_sorted (Schema.sort_insert t ts).
Proof.
  unfold lex_sorted. induction ts as [| u ts IH]; simpl; intros Hs.
  - repeat constructor.
  - destruct (String.leb t u) eqn:Hle.
    + constructor; [done | by constructor].
    + apply Sorted_inv in Hs as [Hs Hhd]. constructor; [by apply IH |].
      destruct ts as [| v ts]; simpl.
      * constructor. destruct (String.leb_total u t); congruence.
      * destruct (String.leb t v).
        -- constructor. destruct (String.leb_total u t); congruence.
        -- constructor. by inversion Hhd.
Qed.

Lemma Array_sort_sorted ts : lex_sorted (Schema.Array_sort ts).
Proof.
  induction ts as [| t ts IH]; simpl; [constructor | by apply sort_insert_sorted].
Qed.

(** The first element of a concatenation of blocks that satisfies [P] lies
    in the first block that has such an element. *)
Lemma flat_map_first {A B} (f : A -> list B) (P : B -> Prop) (l : list A)
      (before : list B) (y : B) (after : list B) :
  flat_map f l = before ++ y :: after ->
  P y -> Forall (fun z => ~ P z) before ->
  exists l1 a l2 m1 m2,
    l = l1 ++ a :: l2 /\ f a = m1 ++ y :: m2
    /\ Forall (fun a' => Forall (fun z => ~ P z) (f a')) l1
    /\ Forall (fun z => ~ P z) m1.
Proof.
  revert before. induction l as [| a l IH]; intros before Heq Hy Hbefore.
  - by destruct before.
  - simpl in Heq.
    apply app_eq_inv in Heq as [(k & Hfa & Hk) | (k & -> & Hk)].
    + destruct k as [| y' k].
      * rewrite app_nil_r in Hfa. simpl in Hk.
        destruct (IH [] (eq_sym Hk) Hy (Forall_nil_2 _))
          as (l1 & a' & l2 & m1 & m2 & -> & Hfa' & Hl1 & Hm1).
        exists (a :: l1), a', l2, m1, m2. repeat split; try done.
        constructor; [by rewrite Hfa | done].
      * injection Hk as <- _.
        exists [], a, l, before, k. repeat split; try done.
    + apply Forall_app in Hbefore as [Hfa Hrest].
      destruct (IH k Hk Hy Hrest)
        as (l1 & a' & l2 & m1 & m2 & -> & Hfa' & Hl1 & Hm1).
      exists (a :: l1), a', l2, m1, m2. repeat split; try done.
      by constructor.
Qed.

End ListFacts.

Section MergeFacts.

Import Schema SchemaSpec.

Lemma map_has_elem_of fm n : map_has fm n = true <-> n ∈ map fi_name fm.
Proof.
  unfold map_has. rewrite existsb_exists, map_is_fmap, list_elem_of_fmap. split.
  - intros (fi & Hin & Heq). apply String.eqb_eq in Heq.
    exists fi. split; [done | by apply list_elem_of_In].
  - intros (fi & -> & Hin). exists fi.
    split; [by apply list_elem_of_In | apply String.eqb_refl].
Qed.

Lemma map_add_type_names fm n t :
  map fi_name (map_add_type fm n t) = map fi_name fm.
Proof.
  induction fm as [| fi fm IH]; simpl; [done |].
  destruct (String.eqb (fi_name fi) n); simpl; [done | by rewrite IH].
Qed.

(** With distinct names, [map_add_type] touches the one entry named [n]. *)
Lemma map_add_type_pointwise fm n t :
  NoDup (map fi_name fm) ->
  map_add_type fm n t = map (add_type_to n t) fm.
Proof.
  induction fm as [| fi fm IH]; simpl; intros Hnd; [done |].
  apply NoDup_cons in Hnd as [Hnotin Hnd]. unfold add_type_to at 1.
  destruct (String.eqb_spec (fi_name fi) n) as [Heq | Hne].
  - f_equal. clear IH. induction fm as [| fj fm IH]; simpl; [done |].
    rewrite map_is_fmap in Hnotin. simpl in Hnotin.
    apply not_elem_of_cons in Hnotin as [Hj Hnotin].
    apply NoDup_cons in Hnd as [_ Hnd].
    unfold add_type_to at 1.
    destruct (String.eqb_spec (fi_name fj) n); [congruence |].
    f_equal. by apply IH.
  - f_equal. by apply IH.
Qed.

Lemma set_add_first_seen t l :
  set_add t (first_seen l) = first_seen (l ++ [t]).
Proof.
  unfold set_add. rewrite first_seen_snoc.
  destruct (existsb (String.eqb t) (first_seen l)) eqn:E.
  - rewrite existsb_eqb_elem_of, elem_of_first_seen in E.
    by rewrite decide_True.
  - rewrite decide_False; [done |]. intros Hin.
    rewrite <- elem_of_first_seen, <- existsb_eqb_elem_of in Hin.
    congruence.
Qed.

Lemma occurrences_of_snoc n occ x :
  occurrences_of n (occ ++ [x])
  = occurrences_of n occ ++ (if decide (name x = n) then [x] else []).
Proof.
  unfold occurrences_of. by rewrite filter_app.
Qed.

Lemma first_occurrence_snoc f occ x :
  first_occurrence f occ -> first_occurrence f (occ ++ [x]).
Proof.
  intros (before & after & -> & Hb). exists before, (after ++ [x]).
  split; [by rewrite <- app_assoc | done].
Qed.

Lemma entry_ok_other occ x fi :
  entry_ok occ fi -> fi_name fi <> name x -> entry_ok (occ ++ [x]) fi.
Proof.
  intros (Hty & f & Hfirst & Hname & Hsample) Hne. split.
  - rewrite Hty. unfold observed_tags. rewrite occurrences_of_snoc.
    rewrite decide_False by congruence. by rewrite app_nil_r.
  - exists f. eauto using first_occurrence_snoc.
Qed.

Lemma entry_ok_same occ x fi :
  entry_ok occ fi -> fi_name fi = name x ->
  entry_ok (occ ++ [x])
    (mkFieldInfo (fi_name fi) (set_add (type x) (fi_types fi)) (fi_sample fi)).
Proof.
  intros (Hty & f & Hfirst & Hname & Hsample) Heq. split; simpl.
  - rewrite Hty. unfold observed_tags. rewrite occurrences_of_snoc.
    rewrite decide_True by done. rewrite set_add_first_seen.
    by rewrite !map_is_fmap, fmap_app.
  - exists f. eauto using first_occurrence_snoc.
Qed.

Lemma occurrences_of_absent n occ :
  n ∉ map name occ -> occurrences_of n occ = [].
Proof.
  unfold occurrences_of. induction occ as [| g occ IH]; simpl; intros Hn; [done |].
  rewrite map_is_fmap in Hn. simpl in Hn.
  apply not_elem_of_cons in Hn as [Hg Hn].
  rewrite filter_cons_False by congruence. by apply IH.
Qed.

Lemma entry_ok_new occ x :
  name x ∉ map name occ ->
  entry_ok (occ ++ [x]) (mkFieldInfo (name x) [type x] (sample x)).
Proof.
  intros Hnew. split; simpl.
  - unfold observed_tags. rewrite occurrences_of_snoc.
    rewrite decide_True by done. by rewrite occurrences_of_absent.
  - exists x. split; [| done]. exists occ, []. split; [done |].
    apply Forall_forall. intros g Hg Heq. apply Hnew. rewrite <- Heq.
    rewrite map_is_fmap. by apply list_elem_of_fmap_2.
Qed.

(** One step of the inner loop keeps the map in step with the scan. *)
Lemma represents_step fm occ x :
  represents fm occ -> represents (merge_field fm x) (occ ++ [x]).
Proof.
  intros [Hnames Hentries]. unfold merge_field.
  assert (Hnd : NoDup (map fi_name fm))
    by (rewrite Hnames; apply NoDup_first_seen).
  destruct (map_has fm (name x)) eqn:Hhas.
  - rewrite map_has_elem_of, Hnames, elem_of_first_seen in Hhas. split.
    + rewrite map_add_type_names, Hnames.
      rewrite (map_is_fmap name (occ ++ [x])), fmap_app. simpl.
      rewrite first_seen_snoc. by rewrite decide_True.
    + rewrite map_add_type_pointwise by done.
      rewrite map_is_fmap. apply Forall_fmap.
      eapply Forall_impl; [exact Hentries |]. intros fi Hok. simpl.
      unfold add_type_to. destruct (String.eqb_spec (fi_name fi) (name x)).
      * by apply entry_ok_same.
      * by apply entry_ok_other.
  - assert (Hnew : name x ∉ map fi_name fm).
    { intros Hin. rewrite <- map_has_elem_of in Hin. congruence. }
    split.
    + rewrite (map_is_fmap fi_name), fmap_app, <- (map_is_fmap fi_name), Hnames.
      rewrite (map_is_fmap name (occ ++ [x])), fmap_app. simpl.
      rewrite first_seen_snoc. rewrite decide_False; [done |].
      intros Hin. apply Hnew. rewrite Hnames. by apply elem_of_first_seen.
    + apply Forall_app. split.
      * apply Forall_forall. intros fi Hfi.
        apply entry_ok_other; [by eapply Forall_forall in Hentries |].
        intros Heq. apply Hnew. rewrite <- Heq, map_is_fmap.
        by apply list_elem_of_fmap_2.
      * apply Forall_singleton, entry_ok_new.
        intros Hin. apply Hnew. rewrite Hnames. by apply elem_of_first_seen.
Qed.

Lemma represents_scan occ : represents (fold_left merge_field occ []) occ.
Proof.
  induction occ as [| x occ IH] using rev_ind.
  - split; [done | constructor].
  - rewrite fold_left_app. simpl. by apply represents_step.
Qed.

(** The two nested [forEach] loops scan the occurrences in order. *)
Lemma merge_samples_scan samples fm :
  fold_left merge_sample samples fm
  = fold_left merge_field (occurrences samples) fm.
Proof.
  revert fm. induction samples as [| s samples IH]; intros fm; simpl; [done |].
  rewrite IH. unfold merge_sample, occurrences. simpl.
  by rewrite fold_left_app.
Qed.

Lemma mergeFieldTypes_scan samples :
  mergeFieldTypes samples
  = map finish_field (fold_left merge_field (occurrences samples) []).
Proof.
  unfold mergeFieldTypes. destruct samples as [| s samples]; [done |].
  by rewrite merge_samples_scan.
Qed.

End MergeFacts.

Section MergeClaim.

Import Schema SchemaSpec.

Lemma merged_type_union ts :
  length ts <> 1%nat -> merged_type ts = String.concat "|" (Array_sort ts).
Proof. destruct ts as [| a [| b ts]]; simpl; intros H; done. Qed.

Lemma mentions_occurrences samples n :
  n ∈ map name (occurrences samples) <-> exists s, s ∈ samples /\ mentions s n.
Proof.
  unfold mentions, occurrences. rewrite !map_is_fmap, list_elem_of_fmap. split.
  - intros (g & -> & Hg). apply list_elem_of_In, in_flat_map in Hg as (s & Hs & Hg).
    exists s. split; [by apply list_elem_of_In |].
    rewrite map_is_fmap. by apply list_elem_of_fmap_2, list_elem_of_In.
  - intros (s & Hs & Hn). rewrite map_is_fmap in Hn.
    apply list_elem_of_fmap in Hn as (g & -> & Hg).
    exists g. split; [done |]. apply list_elem_of_In, in_flat_map.
    exists s. split; by apply list_elem_of_In.
Qed.

(** C6: [mergeFieldTypes] returns one entry per distinct field name, in
    first-seen order over the scanned samples; the entry's type is the
    single tag when every occurrence of the field agrees, and otherwise the
    distinct observed tags sorted lexicographically and joined with "|";
    its sample value comes from the first sample that has the field. *)
Theorem mergeFieldTypes_first_seen_union (samples : list value) :
  let occ := occurrences samples in
  let out := mergeFieldTypes samples in
  map name out = first_seen (map name occ)
  /\ NoDup (map name out)
  /\ (forall n, n ∈ map name out <-> exists s, s ∈ samples /\ mentions s n)
  /\ forall f, f ∈ out ->
       let tags := observed_tags (name f) occ in
       NoDup tags
       /\ (forall t, t ∈ tags <->
                     exists g, g ∈ occ /\ name g = name f /\ type g = t)
       /\ (forall t, (forall g, g ∈ occ -> name g = name f -> type g = t) ->
                     tags = [t] /\ type f = t)
       /\ (length tags <> 1%nat ->
           exists sorted,
             Permutation sorted tags /\ lex_sorted sorted
             /\ type f = String.concat "|" sorted)
       /\ exists before s after g,
            samples = before ++ s :: after
            /\ Forall (fun s' => ~ mentions s' (name f)) before
            /\ first_occurrence g (inferFields s)
            /\ name g = name f
            /\ sample f = sample g.
Proof.
  intros occ out. subst out. rewrite mergeFieldTypes_scan. fold occ.
  destruct (represents_scan occ) as [Hnames Hentries].
  set (fm := fold_left merge_field occ []) in *.
  assert (Hout : map name (map finish_field fm) = first_seen (map name occ)).
  { rewrite map_map. simpl. exact Hnames. }
  split; [exact Hout |]. split; [rewrite Hout; apply NoDup_first_seen |].
  split.
  { intros n. rewrite Hout, elem_of_first_seen. apply mentions_occurrences. }
  intros f Hf. rewrite map_is_fmap in Hf.
  apply list_elem_of_fmap in Hf as (fi & -> & Hfi).
  eapply Forall_forall in Hentries as (Hty & g0 & Hfirst & Hg0 & Hsample); [| exact Hfi].
  simpl. rewrite <- Hty.
  assert (Hmem : forall t, t ∈ fi_types fi <->
                   exists g, g ∈ occ /\ name g = fi_name fi /\ type g = t).
  { intros t. rewrite Hty. unfold observed_tags, occurrences_of.
    rewrite elem_of_first_seen, map_is_fmap, list_elem_of_fmap. split.
    - intros (g & -> & Hg). apply list_elem_of_filter in Hg as [Hn Hg]. eauto.
    - intros (g & Hg & Hn & <-). exists g. split; [done |].
      by apply list_elem_of_filter. }
  split; [rewrite Hty; apply NoDup_first_seen |]. split; [exact Hmem |].
  split; [| split].
  - intros t Hagree.
    assert (Htags : fi_types fi = [t]).
    { rewrite Hty. unfold observed_tags. apply first_seen_all_equal.
      - destruct Hfirst as (before & after & Hocc & _).
        intros Hnil. apply (f_equal length) in Hnil.
        rewrite length_map in Hnil. unfold occurrences_of in Hnil.
        rewrite Hocc, filter_app, filter_cons_True, length_app in Hnil by done.
        simpl in Hnil. lia.
      - rewrite map_is_fmap. apply Forall_fmap, Forall_forall. intros g Hg.
        apply list_elem_of_filter in Hg as [Hn Hg]. simpl. by apply Hagree. }
    split; [done |]. by rewrite Htags.
  - intros Hlen. exists (Array_sort (fi_types fi)).
    split; [apply Array_sort_Permutation |].
    split; [apply Array_sort_sorted | by apply merged_type_union].
  - destruct Hfirst as (before & after & Hocc & Hbefore).
    destruct (flat_map_first inferFields (fun g => name g = fi_name fi)
                samples before g0 after Hocc Hg0)
      as (l1 & s & l2 & m1 & m2 & -> & Hs & Hl1 & Hm1).
    { eapply Forall_impl; [exact Hbefore |]. simpl. intros g Hg. congruence. }
    exists l1, s, l2, g0. split; [done |]. split; [| split; [| done]].
    + eapply Forall_impl; [exact Hl1 |]. simpl. intros s' Hs' Hment.
      unfold mentions in Hment. rewrite map_is_fmap in Hment.
      apply list_elem_of_fmap in Hment as (g & Hn & Hg).
      eapply Forall_forall in Hs'; [| exact Hg]. by apply Hs'.
    + exists m1, m2. split; [done |].
      eapply Forall_impl; [exact Hm1 |]. simpl. intros g Hg. congruence.
Qed.

End MergeClaim.

Section PaginationFacts.

Import Schema SchemaSpec.

Lemma hasPage_any inner : hasPage inner = any_key page_names inner.
Proof. unfold hasPage, any_key. simpl. by rewrite orb_false_r, orb_assoc. Qed.

Lemma hasPerPage_any inner : hasPerPage inner = any_key per_page_names inner.
Proof. unfold hasPerPage, any_key. simpl. by rewrite orb_false_r, !orb_assoc. Qed.

Lemma hasTotal_any inner : hasTotal inner = any_key total_names inner.
Proof. unfold hasTotal, any_key. simpl. by rewrite orb_false_r, orb_assoc. Qed.

Lemma page_condition inner :
  hasPage inner && (hasPerPage inner || hasTotal inner) = page_signature inner.
Proof. unfold page_signature. by rewrite hasPage_any, hasPerPage_any, hasTotal_any. Qed.

Lemma page_pagination_expected key inner :
  page_signature inner = true ->
  page_pagination key inner = expected_pagination key inner.
Proof. intros H. unfold expected_pagination. by rewrite H. Qed.

Lemma offset_pagination_expected key inner :
  page_signature inner = false ->
  offset_pagination key = expected_pagination key inner.
Proof. intros H. unfold expected_pagination. by rewrite H. Qed.

(** One iteration returns exactly when the value is a container. *)
Lemma detect_in_container key v :
  detect_in key v =
  match v with
  | VObj inner =>
      if is_container v then Some (expected_pagination key inner) else None
  | _ => None
  end.
Proof.
  destruct v as [| | | | | | inner]; try done. simpl.
  rewrite page_condition. unfold hasOffset, hasLimit.
  fold (offset_signature inner).
  destruct (page_signature inner) eqn:Hp; simpl.
  - by rewrite page_pagination_expected.
  - destruct (offset_signature inner); [| done].
    by rewrite (offset_pagination_expected key inner).
Qed.

Lemma detect_in_None key v : detect_in key v = None <-> is_container v = false.
Proof.
  rewrite detect_in_container.
  destruct v as [| | | | | | inner]; try done.
  destruct (is_container (VObj inner)); naive_solver.
Qed.

Lemma detect_in_Some key v p :
  detect_in key v = Some p ->
  exists inner, v = VObj inner /\ is_container v = true
                /\ p = expected_pagination key inner.
Proof.
  rewrite detect_in_container.
  destruct v as [| | | | | | inner]; try done.
  destruct (is_container (VObj inner)); [| done].
  intros [= <-]. by exists inner.
Qed.

Lemma detectPagination_loop_first props :
  match detectPagination_loop props with
  | Some p =>
      exists before key inner after,
        props = before ++ (key, VObj inner) :: after
        /\ Forall (fun kv => is_container (snd kv) = false) before
        /\ is_container (VObj inner) = true
        /\ p = expected_pagination key inner
  | None => Forall (fun kv => is_container (snd kv) = false) props
  end.
Proof.
  induction props as [| [key v] props IH]; simpl; [constructor |].
  destruct (detect_in key v) as [p |] eqn:Hd.
  - apply detect_in_Some in Hd as (inner & -> & Hc & ->).
    by exists [], key, inner, props.
  - apply detect_in_None in Hd.
    destruct (detectPagination_loop props) as [p |].
    + destruct IH as (before & key' & inner & after & -> & Hb & Hc & ->).
      exists ((key, v) :: before), key', inner, after.
      repeat split; try done. by constructor.
    + by constructor.
Qed.

Lemma detectPagination_loop_skip before rest :
  Forall (fun kv => is_container (snd kv) = false) before ->
  detectPagination_loop (before ++ rest) = detectPagination_loop rest.
Proof.
  induction before as [| [key v] before IH]; simpl; intros Hb; [done |].
  apply Forall_cons in Hb as [Hv Hb]. simpl in Hv.
  apply (detect_in_None key) in Hv. rewrite Hv. by apply IH.
Qed.

(** The name recorded for a role that the container has is one of the
    container's keys. *)
Lemma recorded_name_present names inner :
  any_key names inner = true -> has_key (recorded_name names inner) inner = true.
Proof.
  unfold any_key. induction names as [| k names IH]; simpl; [done |].
  destruct names as [| k' names].
  - simpl. by rewrite orb_false_r.
  - destruct (has_key k inner) eqn:Hk; [done |]. simpl in *. exact IH.
Qed.

Lemma inferSchema_array_no_pagination items s :
  inferSchema (VArr items) = Some s -> pagination s = None.
Proof. destruct items; simpl; [done |]. by intros [= <-]. Qed.

(** C5, as the code has it: the first property (in iteration order) whose
    value is a non-array object matching the page-based or, failing that,
    the offset-based signature decides the result, with canonical
    parameter names; metaPaths record, under the container's name, the
    first synonym present for each role and a fallback name (the last
    synonym, or [total] for offset pagination) for a role the container
    lacks; without such a property the result is [null]; a top-level array
    never gets pagination. *)
Theorem detectPagination_first_container (props : object) :
  match detectPagination (VObj props) with
  | Some p =>
      exists before key inner after,
        props = before ++ (key, VObj inner) :: after
        /\ Forall (fun kv => is_container (snd kv) = false) before
        /\ is_container (VObj inner) = true
        /\ p = expected_pagination key inner
  | None => Forall (fun kv => is_container (snd kv) = false) props
  end
  /\ (forall before key inner after,
        props = before ++ (key, VObj inner) :: after ->
        Forall (fun kv => is_container (snd kv) = false) before ->
        is_container (VObj inner) = true ->
        detectPagination (VObj props) = Some (expected_pagination key inner))
  /\ (Forall (fun kv => is_container (snd kv) = false) props ->
      detectPagination (VObj props) = None)
  /\ (forall inner names,
        any_key names inner = true ->
        has_key (recorded_name names inner) inner = true)
  /\ (forall items s, inferSchema (VArr items) = Some s -> pagination s = None).
Proof.
  split; [apply detectPagination_loop_first |].
  split.
  { intros before key inner after -> Hb Hc. unfold detectPagination, for_in.
    rewrite detectPagination_loop_skip by done.
    cbn [detectPagination_loop]. rewrite detect_in_container. by rewrite Hc. }
  split.
  { intros Hnone. unfold detectPagination, for_in.
    rewrite <- (app_nil_r props), detectPagination_loop_skip; done. }
  split; [intros; by apply recorded_name_present |].
  apply inferSchema_array_no_pagination.
Qed.

(** C5 as stated fails: with [page] and [total] but no per-page key, the
    recorded [perPage] path names a key the container does not have. *)
Lemma metaPaths_name_found_keys_counterexample :
  ~ metaPaths_name_found_keys page_total_only.
Proof.
  intros H.
  destruct (H (page_pagination "meta" [("page", num 1); ("total", num 100)])
              [("currentPage", "meta.page"); ("perPage", "meta.pageSize");
               ("total", "meta.total")]
              "perPage" "meta.pageSize")
    as (key & inner & k & Hin & Hk & Hpath); [done | done | |].
  - simpl. tauto.
  - destruct Hin as [Hin | [Hin | []]]; [discriminate |].
    injection Hin as <- <-.
    unfold has_key in Hk. cbn [existsb fst] in Hk. rewrite orb_false_r in Hk.
    apply orb_true_iff in Hk as [Hk | Hk]; apply String.eqb_eq in Hk;
      subst k; discriminate Hpath.
Qed.

Lemma detectPagination_loop_Some_iff props :
  is_Some (detectPagination_loop props)
  <-> Exists (fun kv => is_container (snd kv) = true) props.
Proof.
  induction props as [| [key v] props IH]; simpl.
  - split; [by intros [? ?] | by intros ?%Exists_nil].
  - rewrite Exists_cons. simpl.
    destruct (detect_in key v) as [p |] eqn:Hd.
    + apply detect_in_Some in Hd as (inner & -> & Hc & ->). split; eauto.
    + apply detect_in_None in Hd. rewrite IH, Hd. naive_solver.
Qed.

Lemma detectPagination_loop_rename rename props :
  option_map p_type (detectPagination_loop (rename_keys rename props))
  = option_map p_type (detectPagination_loop props).
Proof.
  induction props as [| [key v] props IH]; simpl; [done |].
  rewrite !detect_in_container.
  destruct v as [| | | | | | inner]; try done.
  destruct (is_container (VObj inner)); [| done].
  simpl. unfold expected_pagination. by destruct (page_signature inner).
Qed.

(** C10: whether a property is taken as the pagination container depends
    on the keys inside its value only.  Detection succeeds exactly when
    some property holds a non-array object matching a signature; renaming
    the properties changes neither the outcome nor the kind of pagination;
    a matching object is detected under any name, in or out of the
    declared [paginationKeys] list. *)
Theorem detection_ignores_container_name (props : object) (rename : string -> string) :
  (is_Some (detectPagination (VObj props))
   <-> Exists (fun kv => is_container (snd kv) = true) props)
  /\ option_map p_type (detectPagination (VObj (rename_keys rename props)))
     = option_map p_type (detectPagination (VObj props))
  /\ (forall key inner,
        is_container (VObj inner) = true ->
        detectPagination (VObj [(key, VObj inner)])
        = Some (expected_pagination key inner))
  /\ (forall key inner,
        key ∉ paginationKeys ->
        is_container (VObj inner) = true ->
        is_Some (detectPagination (VObj (props ++ [(key, VObj inner)])))).
Proof.
  split; [apply detectPagination_loop_Some_iff |].
  split; [apply detectPagination_loop_rename |].
  split.
  - intros key inner Hc. unfold detectPagination, for_in.
    cbn [detectPagination_loop]. rewrite detect_in_container. by rewrite Hc.
  - intros key inner _ Hc. apply detectPagination_loop_Some_iff.
    apply Exists_app. right. by constructor.
Qed.

(** An offset/limit object under the name [cursor], which is not one of
    [paginationKeys], is detected. *)
Lemma detection_ignores_container_name_witness :
  is_Some (detectPagination
             (VObj ([("items", VArr [])]
                    ++ [("cursor", VObj [("offset", num 0); ("limit", num 10)])]))).
Proof.
  apply (detection_ignores_container_name [("items", VArr [])] id).
  - unfold paginationKeys. rewrite !elem_of_cons, elem_of_nil.
    intros [H | [H | [H | [H | H]]]]; [discriminate .. | done].
  - reflexivity.
Defined.

End PaginationFacts.

Section InferSchemaFacts.

Import Schema SchemaSpec.

Lemma findArrayPath_loop_first props :
  match findArrayPath_loop props with
  | Some key =>
      exists before array after,
        props = before ++ (key, VArr array) :: after
        /\ array <> []
        /\ Forall (fun kv => nonempty_array (snd kv) = false) before
  | None => Forall (fun kv => nonempty_array (snd kv) = false) props
  end.
Proof.
  induction props as [| [key v] props IH]; simpl; [constructor |].
  assert (Hskip : nonempty_array v = false ->
    match findArrayPath_loop props with
    | Some key0 =>
        exists before array after,
          (key, v) :: props = before ++ (key0, VArr array) :: after
          /\ array <> []
          /\ Forall (fun kv => nonempty_array (snd kv) = false) before
    | None => Forall (fun kv => nonempty_array (snd kv) = false) ((key, v) :: props)
    end).
  { intros Hv. destruct (findArrayPath_loop props) as [key0 |].
    - destruct IH as (before & array & after & -> & Hne & Hb).
      exists ((key, v) :: before), array, after. repeat split; try done.
      by constructor.
    - by constructor. }
  destruct v as [| | | | | [| x items] |]; try (by apply Hskip).
  by exists [], (x :: items), props.
Qed.

Lemma get_prop_NoDup props key v :
  NoDup (map fst props) -> In (key, v) props -> get_prop props key = v.
Proof.
  induction props as [| [k x] props IH]; simpl; intros Hnd Hin; [done |].
  apply NoDup_cons in Hnd as [Hk Hnd].
  destruct (String.eqb_spec k key) as [-> | Hne].
  - destruct Hin as [[= ->] | Hin]; [done |].
    exfalso. apply Hk. rewrite map_is_fmap.
    apply (list_elem_of_fmap_2 fst _ (key, v)). by apply list_elem_of_In.
  - destruct Hin as [[= -> ->] | Hin]; [done | by apply IH].
Qed.

Lemma inferSchema_nullish :
  inferSchema VNull = None /\ inferSchema VUndefined = None
  /\ inferSchema (VArr []) = None.
Proof. done. Qed.

Lemma inferSchema_top_level_array items :
  items <> [] ->
  inferSchema (VArr items)
  = Some (mkSchema "$"
            (mergeFieldTypes (take (Nat.min 5 (length items)) items)) None).
Proof. by destruct items. Qed.

(** An object whose first array-valued property has a non-empty name. *)
Lemma inferSchema_wrapped props key :
  NoDup (map fst props) ->
  findArrayPath_loop props = Some key ->
  key <> "" ->
  exists before array after,
    props = before ++ (key, VArr array) :: after
    /\ array <> []
    /\ Forall (fun kv => nonempty_array (snd kv) = false) before
    /\ inferSchema (VObj props)
       = Some (mkSchema ("$." +:+ key)
                 (mergeFieldTypes (take (Nat.min 5 (length array)) array))
                 (detectPagination (VObj props))).
Proof.
  intros Hnd Hfind Hkey.
  pose proof (findArrayPath_loop_first props) as Hfirst. rewrite Hfind in Hfirst.
  destruct Hfirst as (before & array & after & Hprops & Hne & Hb).
  exists before, array, after. repeat split; try done.
  unfold inferSchema, findArrayPath. simpl. rewrite Hfind.
  destruct (String.eqb_spec key ""); [done |].
  rewrite (get_prop_NoDup props key (VArr array)); [done | done |].
  rewrite Hprops. apply in_elt.
Qed.

Lemma inferSchema_no_array props :
  findArrayPath_loop props = None -> inferSchema (VObj props) = None.
Proof. intros H. unfold inferSchema, findArrayPath. simpl. by rewrite H. Qed.

(** C4 fails on the code for a property named by the empty string: the
    property is found, and then discarded by the truthiness test on its
    name. *)
Theorem inferSchema_empty_key_dropped :
  findArrayPath empty_key_payload = Some ""
  /\ inferSchema empty_key_payload = None.
Proof. split; reflexivity. Qed.

End InferSchemaFacts.

(** * Properties of the generator *)

Section StringFacts.

Import Generator GeneratorSpec.

Lemma append_cons c s t : String c s +:+ t = String c (s +:+ t).
Proof. reflexivity. Qed.

Lemma append_nil t : "" +:+ t = t.
Proof. reflexivity. Qed.

Lemma prefix_app sub s :
  String.prefix sub s = true <-> exists post, s = sub +:+ post.
Proof.
  revert s. induction sub as [| c sub IH]; intros [| c' s]; simpl.
  - split; eauto.
  - split; eauto.
  - split; [done | by intros [post Hp]].
  - setoid_rewrite append_cons. destruct (ascii_dec c c') as [-> | Hne].
    + rewrite IH. split; intros [post Hp]; exists post; congruence.
    + split; [done |]. intros [post Hp]. congruence.
Qed.

Lemma includes_contains s sub : includes s sub = true <-> contains s sub.
Proof.
  unfold contains. induction s as [| c s IH]; cbn [includes].
  - rewrite orb_false_r, prefix_app. split.
    + intros [post Hp]. by exists "", post.
    + intros (pre & post & Hp). destruct pre; [by exists post |]. discriminate.
  - rewrite orb_true_iff, IH, prefix_app. split.
    + intros [[post Hp] | (pre & post & Hp)].
      * by exists "", post.
      * exists (String c pre), post. by rewrite append_cons, Hp.
    + intros (pre & post & Hp). destruct pre as [| c' pre].
      * left. by exists post.
      * right. rewrite append_cons in Hp. injection Hp as _ Hp. by exists pre, post.
Qed.

Lemma toLowerCase_split s : forall a b,
  toLowerCase s = a +:+ b ->
  exists s1 s2, s = s1 +:+ s2 /\ toLowerCase s1 = a /\ toLowerCase s2 = b.
Proof.
  induction s as [| c s IH]; intros [| x a] b; cbn [toLowerCase];
    rewrite ?append_cons, ?append_nil; intros Heq.
  - by exists "", "".
  - discriminate.
  - by exists "", (String c s).
  - injection Heq as Hc Hrest.
    destruct (IH a b Hrest) as (s1 & s2 & -> & H1 & H2).
    exists (String c s1), s2. cbn [toLowerCase]. by rewrite append_cons, Hc, H1.
Qed.

Lemma toLowerCase_app a b :
  toLowerCase (a +:+ b) = toLowerCase a +:+ toLowerCase b.
Proof.
  induction a as [| c a IH]; [done |].
  rewrite append_cons. cbn [toLowerCase]. by rewrite IH, append_cons.
Qed.

(** Lower-casing a character gives [d], a character that is not a
    capital, exactly when the character is [d] up to case. *)
Lemma lower_ascii_same c d :
  ~ capital d -> lower_ascii c = d <-> same_letter c d.
Proof.
  intros Hd. unfold lower_ascii, same_letter, capital in *.
  pose proof (nat_ascii_bounded c) as Hc.
  destruct (Nat.leb_spec 65 (nat_of_ascii c));
    destruct (Nat.leb_spec (nat_of_ascii c) 90); cbn [andb]; split.
  - intros <-. right; left. split; [lia |].
    apply nat_ascii_embedding. lia.
  - intros [-> | [[_ Hn] | [Hcap _]]]; [lia | | lia].
    by rewrite <- Hn, ascii_nat_embedding.
  - intros ->. by left.
  - intros [-> | [[Hcap _] | [Hcap _]]]; [done | lia | lia].
  - intros ->. by left.
  - intros [-> | [[Hcap _] | [Hcap _]]]; [done | lia | lia].
  - intros ->. by left.
  - intros [-> | [[Hcap _] | [Hcap _]]]; [done | lia | lia].
Qed.

Lemma toLowerCase_same mid : forall w,
  no_capital w -> toLowerCase mid = w <-> same_ignoring_case mid w.
Proof.
  induction mid as [| c mid IH]; intros [| d w] Hw;
    cbn [toLowerCase same_ignoring_case]; try done.
  destruct Hw as [Hd Hw]. rewrite <- (IH w Hw), <- (lower_ascii_same c d Hd).
  split; [by intros [= -> ->] | by intros [-> ->]].
Qed.

(** The lower-cased name contains a word without capitals exactly when
    the name contains the word up to case. *)
Lemma contains_lower_mentions key w :
  no_capital w -> contains (toLowerCase key) w <-> mentions key w.
Proof.
  intros Hw. unfold contains, mentions. split.
  - intros (pre & post & Heq).
    apply toLowerCase_split in Heq as (s1 & s23 & -> & _ & Heq).
    apply toLowerCase_split in Heq as (s2 & s3 & -> & Hmid & _).
    exists s1, s2, s3. split; [done |]. by apply toLowerCase_same.
  - intros (pre & mid & post & -> & Hsame).
    apply toLowerCase_same in Hsame; [| done].
    exists (toLowerCase pre), (toLowerCase post).
    by rewrite !toLowerCase_app, Hsame.
Qed.

Lemma denylist_no_capital d : d ∈ denylist -> no_capital d.
Proof.
  unfold denylist. rewrite !elem_of_cons, elem_of_nil.
  intros H. repeat (destruct H as [-> | H]; [vm_compute; repeat split; lia |]).
  done.
Qed.

(** The code's test on a header name, in the specification's words. *)
Lemma isSensitive_spec key : isSensitive key = true <-> sensitive_name key.
Proof.
  unfold isSensitive, sensitive_name. rewrite existsb_exists.
  split; intros (d & Hd & Hc); exists d.
  - apply list_elem_of_In in Hd. split; [done |].
    apply contains_lower_mentions; [by apply denylist_no_capital |].
    by apply includes_contains.
  - split; [by apply list_elem_of_In |].
    apply includes_contains, contains_lower_mentions;
      [by apply denylist_no_capital | done].
Qed.

Lemma isSensitive_false key : isSensitive key = false <-> ~ sensitive_name key.
Proof.
  rewrite <- isSensitive_spec. by destruct (isSensitive key).
Qed.

End StringFacts.

Section MaskFacts.

Import Generator GeneratorSpec.

Lemma set_property_fresh masked key v :
  key ∉ map fst masked -> set_property masked key v = masked ++ [(key, v)].
Proof.
  induction masked as [| [k x] masked IH]; simpl; intros Hk; [done |].
  rewrite map_is_fmap in Hk. simpl in Hk. apply not_elem_of_cons in Hk as [Hne Hk].
  destruct (String.eqb_spec k key); [congruence |]. f_equal. by apply IH.
Qed.

Lemma NoDup_fst_unique (hs : headers_map) k v1 v2 :
  NoDup (map fst hs) -> (k, v1) ∈ hs -> (k, v2) ∈ hs -> v1 = v2.
Proof.
  induction hs as [| [k0 v0] hs IH]; simpl; intros Hnd H1 H2.
  - by apply elem_of_nil in H1.
  - apply NoDup_cons in Hnd as [Hk Hnd].
    assert (Hfresh : forall v, (k0, v) ∈ hs -> False).
    { intros v Hv. apply Hk. rewrite map_is_fmap.
      by apply (list_elem_of_fmap_2 fst _ (k0, v)). }
    apply elem_of_cons in H1 as [[= -> ->] | H1];
      apply elem_of_cons in H2 as [[= ->] | H2]; try done.
    + by apply Hfresh in H2.
    + subst. by apply Hfresh in H1.
    + by apply IH.
Qed.

(** One round of the loop: a header named [__proto__] leaves the object
    as it is. *)
Lemma mask_step_proto masked v : mask_step masked ("__proto__", v) = masked.
Proof. done. Qed.

Lemma mask_step_other masked h :
  fst h <> "__proto__" ->
  mask_step masked h = set_property masked (fst (mask_entry h)) (snd (mask_entry h)).
Proof.
  intros Hne. unfold mask_step, set_header.
  by destruct (String.eqb_spec (fst h) "__proto__").
Qed.

Lemma mask_fold hs : forall acc,
  NoDup (map fst acc ++ map fst hs) ->
  fold_left mask_step hs acc
  = acc ++ map mask_entry (filter (fun h => fst h <> "__proto__") hs).
Proof.
  induction hs as [| h hs IH]; intros acc Hnd; cbn [fold_left].
  - by rewrite filter_nil, app_nil_r.
  - assert (Hrest : NoDup (map fst acc ++ map fst hs)).
    { cbn [map] in Hnd. apply NoDup_app in Hnd as (Ha & Hdisj & Hh).
      apply NoDup_cons in Hh as [_ Hh]. apply NoDup_app.
      split; [done |]. split; [| done].
      intros x Hx Hin. apply (Hdisj x Hx). by apply elem_of_cons; right. }
    destruct (decide (fst h = "__proto__")) as [Hp | Hne].
    + destruct h as [k v]. cbn [fst] in Hp. subst k. rewrite mask_step_proto.
      rewrite filter_cons_False by (cbn [fst]; by intros ?). by apply IH.
    + rewrite mask_step_other by done. rewrite filter_cons_True by done.
      cbn [map]. rewrite set_property_fresh.
      * rewrite IH.
        -- rewrite <- app_assoc. by destruct (mask_entry h).
        -- rewrite (map_is_fmap fst (acc ++ _)), fmap_app, <- app_assoc.
           cbn [fmap list_fmap]. rewrite <- !map_is_fmap. exact Hnd.
      * apply NoDup_app in Hnd as (_ & Hdisj & _). intros Hin.
        apply (Hdisj _ Hin). cbn [map]. apply elem_of_cons. by left.
Qed.

Lemma maskSensitiveHeaders_map hs :
  NoDup (map fst hs) ->
  maskSensitiveHeaders (Some hs)
  = map mask_entry (filter (fun h => fst h <> "__proto__") hs).
Proof. intros Hnd. cbn [maskSensitiveHeaders]. by rewrite mask_fold. Qed.

Lemma mask_entry_fst hs : map fst (map mask_entry hs) = map fst hs.
Proof. rewrite map_map. done. Qed.

Lemma mask_entry_idemp h : mask_entry (mask_entry h) = mask_entry h.
Proof. unfold mask_entry. simpl. by destruct (isSensitive (fst h)). Qed.

Lemma filter_fst_proto (hs : headers_map) :
  map fst (filter (fun h => fst h <> "__proto__") hs)
  = filter (fun k => k <> "__proto__") (map fst hs).
Proof.
  induction hs as [| h hs IH]; [done |]. cbn [map].
  destruct (decide (fst h = "__proto__")) as [Hp | Hne].
  - rewrite (filter_cons_False _ h) by (intros Hne; by apply Hne).
    rewrite (filter_cons_False _ (fst h)) by (intros Hne; by apply Hne). done.
  - rewrite (filter_cons_True _ h) by done.
    rewrite (filter_cons_True _ (fst h)) by done. cbn [map]. f_equal. exact IH.
Qed.

Lemma filter_all {A} (P : A -> Prop) `{forall x, Decision (P x)} (l : list A) :
  (forall x, x ∈ l -> P x) -> filter P l = l.
Proof.
  induction l as [| a l IH]; intros Hall; [done |].
  rewrite filter_cons_True by (apply Hall; by apply elem_of_cons; left).
  f_equal. apply IH. intros x Hx. apply Hall. by apply elem_of_cons; right.
Qed.

(** The masking loop never creates a property named [__proto__]. *)
Lemma mask_fold_no_proto hs : forall acc,
  "__proto__" ∉ map fst acc ->
  "__proto__" ∉ map fst (fold_left mask_step hs acc).
Proof.
  induction hs as [| [k v] hs IH]; intros acc Hacc; cbn [fold_left]; [done |].
  apply IH. unfold mask_step, set_header. cbn [fst snd].
  destruct (String.eqb_spec k "__proto__") as [| Hne]; [done |].
  clear IH. induction acc as [| [k0 x] acc IHacc]; cbn [set_property map fst].
  - intros [? | ?%elem_of_nil]%elem_of_cons; [congruence | done].
  - cbn [map fst] in Hacc. apply not_elem_of_cons in Hacc as [Hk0 Hacc].
    destruct (String.eqb_spec k0 k); cbn [map fst];
      apply not_elem_of_cons; split; try done. by apply IHacc.
Qed.

(** The masking of a well-formed header object, for every header that is
    not named [__proto__]: the names are kept, in order; a
    header whose name contains a denylist word, in any case, gets the
    literal "<masked>" and no other value; a header with an ASCII name
    that contains none keeps its value; and masking twice is masking
    once. *)
Lemma maskSensitiveHeaders_masks (hs : headers_map) :
  NoDup (map fst hs) ->
  let masked := maskSensitiveHeaders (Some hs) in
  map fst masked = filter (fun k => k <> "__proto__") (map fst hs)
  /\ (forall k v, (k, v) ∈ hs -> sensitive_name k ->
        (k, "<masked>") ∈ masked
        /\ forall v', (k, v') ∈ masked -> v' = "<masked>")
  /\ (forall k v, (k, v) ∈ hs -> k <> "__proto__" -> ascii_name k ->
        ~ sensitive_name k ->
        (k, v) ∈ masked /\ forall v', (k, v') ∈ masked -> v' = v)
  /\ maskSensitiveHeaders (Some masked) = masked.
Proof.
  intros Hnd masked. subst masked. rewrite maskSensitiveHeaders_map by done.
  set (own := filter (fun h : string * string => fst h <> "__proto__") hs).
  assert (Hown : forall k v, (k, v) ∈ own <-> (k, v) ∈ hs /\ k <> "__proto__").
  { intros k v. unfold own. rewrite list_elem_of_filter. cbn [fst]. tauto. }
  assert (Hval : forall k v', (k, v') ∈ map mask_entry own ->
            exists v, (k, v) ∈ hs /\ v' = if isSensitive k then "<masked>" else v).
  { intros k v' Hin. rewrite map_is_fmap in Hin.
    apply list_elem_of_fmap in Hin as ([k0 v0] & [= -> ->] & Hin).
    apply Hown in Hin as [Hin _]. eauto. }
  assert (Huniq : forall k v1 v2, (k, v1) ∈ hs -> (k, v2) ∈ hs -> v1 = v2).
  { intros k v1 v2 H1 H2. by eapply NoDup_fst_unique. }
  assert (Hkeys : map fst (map mask_entry own)
                  = filter (fun k => k <> "__proto__") (map fst hs)).
  { rewrite mask_entry_fst. apply filter_fst_proto. }
  split; [done |]. split; [| split].
  - intros k v Hin Hs. apply isSensitive_spec in Hs as Hb.
    assert (Hne : k <> "__proto__").
    { intros ->. vm_compute in Hb. discriminate. }
    split.
    + rewrite map_is_fmap. apply list_elem_of_fmap. exists (k, v).
      split; [| by apply Hown]. unfold mask_entry. simpl. by rewrite Hb.
    + intros v' Hv'. apply Hval in Hv' as (v0 & _ & ->). by rewrite Hb.
  - intros k v Hin Hne _ Hs. apply isSensitive_false in Hs as Hb. split.
    + rewrite map_is_fmap. apply list_elem_of_fmap. exists (k, v).
      split; [| by apply Hown]. unfold mask_entry. simpl. by rewrite Hb.
    + intros v' Hv'. apply Hval in Hv' as (v0 & Hv0 & ->). rewrite Hb. eauto.
  - rewrite maskSensitiveHeaders_map.
    + rewrite filter_all.
      * rewrite map_map. apply map_ext. apply mask_entry_idemp.
      * intros [k v] Hin. cbn [fst]. intros ->.
        assert (Hk : "__proto__" ∈ map fst (map mask_entry own)).
        { rewrite map_is_fmap. by apply (list_elem_of_fmap_2 fst _ ("__proto__", v)). }
        rewrite Hkeys in Hk. by apply list_elem_of_filter in Hk as [Hk _].
    + change (NoDup (map fst (map mask_entry own))).
      rewrite Hkeys. by apply NoDup_filter.
Qed.

(** Three headers, two of them sensitive. *)
Lemma maskSensitiveHeaders_masks_example :
  maskSensitiveHeaders (Some sample_headers)
  = [("Authorization", "<masked>"); ("Content-Type", "application/json");
     ("X-Api-Key", "<masked>")]
  /\ sensitive_name "Authorization" /\ sensitive_name "X-Api-Key"
  /\ ~ sensitive_name "Content-Type".
Proof.
  split; [done |]. rewrite <- isSensitive_false, <- !isSensitive_spec. done.
Qed.

(** C7, where the code departs from it: a header named [__proto__] is not
    passed through.  Its name contains no denylist word, so the claim has
    it copied unchanged; the loop assigns it to [masked["__proto__"]],
    which creates no property, and the header is missing from the result
    of every call, as if it had not been there. *)
Theorem maskSensitiveHeaders_drops_proto (hs : headers_map) (v : string) :
  ~ sensitive_name "__proto__"
  /\ ("__proto__" ∉ map fst (maskSensitiveHeaders (Some hs)))
  /\ maskSensitiveHeaders (Some (("__proto__", v) :: hs))
     = maskSensitiveHeaders (Some hs)
  /\ maskSensitiveHeaders (Some proto_headers) = [("Accept", "text/html")].
Proof.
  split; [by apply isSensitive_false |].
  split; [apply mask_fold_no_proto; by intros ?%elem_of_nil |]. done.
Qed.

End MaskFacts.

Section GeneratorClaims.

Import Schema Generator GeneratorSpec.

Lemma mapFieldType_union pre post : mapFieldType (pre +:+ "|" +:+ post) = "text".
Proof.
  unfold mapFieldType.
  assert (Hinc : includes (pre +:+ "|" +:+ post) "|" = true).
  { apply includes_contains. by exists pre, post. }
  assert (Htruthy : truthy (pre +:+ "|" +:+ post) = true).
  { unfold truthy. by destruct pre. }
  by rewrite Hinc, Htruthy.
Qed.

(** C8: [integer] and [number] map to [number]; [string], [object],
    [array] and [null] map to [text]; every tag containing "|" maps to
    [text], whatever its constituents. *)
Theorem mapFieldType_table :
  mapFieldType "integer" = "number"
  /\ mapFieldType "number" = "number"
  /\ mapFieldType "string" = "text"
  /\ mapFieldType "object" = "text"
  /\ mapFieldType "array" = "text"
  /\ mapFieldType "null" = "text"
  /\ mapFieldType "boolean|number|string" = "text"
  /\ (forall pre post, mapFieldType (pre +:+ "|" +:+ post) = "text")
  /\ (forall t, includes t "|" = true -> mapFieldType t = "text").
Proof.
  repeat split; try reflexivity.
  - apply mapFieldType_union.
  - intros t Ht. apply includes_contains in Ht as (pre & post & ->).
    apply mapFieldType_union.
Qed.

Lemma replace_dollar_leading rest : replace_dollar ("$" +:+ rest) = rest.
Proof. reflexivity. Qed.

Lemma or_default_absent d : or_default None d = d.
Proof. reflexivity. Qed.

Lemma or_default_supplied s d : s <> "" -> or_default (Some s) d = s.
Proof. intros Hs. simpl. by destruct (String.eqb_spec s ""). Qed.

(** C9: the wrapper has one table column per schema field, in the field
    list's order, each with [key] (and [name]) the field name and selector
    "<samplePath>[].<fieldName>"; the data binding references the
    datasource output at [samplePath] without its leading "$"; and there
    is a pagination component exactly when the schema has pagination,
    with its [type] carried through and [pageParam] / [limitParam]
    defaulting to "page" / "limit". *)
Theorem generateImportWrapper_columns (schema : GenSchema) (opts : Opts) :
  let w := generateImportWrapper schema opts in
  let fields := default [] (g_fields schema) in
  let samplePath := default "$" (g_samplePath schema) in
  let columns := t_columns (table (components w)) in
  length columns = length fields
  /\ map c_key columns = map name fields
  /\ (forall i f, fields !! i = Some f ->
        columns !! i
        = Some {| c_name := name f;
                  c_key := name f;
                  c_type := mapFieldType (type f);
                  c_selector := samplePath +:+ "[]." +:+ name f |})
  /\ (forall rest, samplePath = "$" +:+ rest ->
        t_dataBinding (table (components w))
        = "{{datasource.data" +:+ rest +:+ "}}")
  /\ (is_Some (c_pagination (components w)) <-> is_Some (g_pagination schema))
  /\ (forall p, g_pagination schema = Some p ->
        exists pc,
          c_pagination (components w) = Some pc
          /\ pc_type pc = p_type p
          /\ (pageParam p = None -> pc_pageParam pc = "page")
          /\ (limitParam p = None -> pc_limitParam pc = "limit")
          /\ (forall s, pageParam p = Some s -> s <> "" -> pc_pageParam pc = s)
          /\ (forall s, limitParam p = Some s -> s <> "" -> pc_limitParam pc = s)).
Proof.
  intros w fields samplePath columns. subst w columns. simpl.
  fold fields. fold samplePath.
  split; [by rewrite length_map |].
  split; [by rewrite map_map |].
  split.
  { intros i f Hf. rewrite map_is_fmap, list_lookup_fmap, Hf. done. }
  split.
  { intros rest ->. by rewrite replace_dollar_leading. }
  split.
  { destruct (g_pagination schema); split; intros [? ?]; done. }
  intros p ->. eexists. split; [done |]. simpl.
  split; [done |].
  split; [by intros -> |]. split; [by intros -> |].
  split; intros s -> Hs; by apply or_default_supplied.
Qed.

(** A string pattern replaces the first "$", wherever it stands. *)
Lemma replace_dollar_inner : replace_dollar "data$x" = "datax".
Proof. reflexivity. Qed.

End GeneratorClaims.

(** * The repository's unit tests and the specification's scenarios, replayed *)

Section UnitTests.

Import Schema Generator SchemaSpec GeneratorSpec TestData.

Example test_findArrayPath :
  findArrayPath two_ids = None
  /\ findArrayPath several_arrays = Some "orders"
  /\ findArrayPath no_arrays = None.
Proof. repeat split. Qed.

Example test_inferFields_basic_types :
  map (fun f => (name f, type f)) (inferFields basic_sample)
  = [("id", "integer"); ("name", "string"); ("amount", "number");
     ("active", "boolean"); ("data", "null")].
Proof. reflexivity. Qed.

Example test_detectPagination_naming :
  detectPagination other_naming
  = Some {| p_type := "page";
            pageParam := Some "page";
            offsetParam := None;
            limitParam := Some "limit";
            metaPaths := Some [("currentPage", "pagination.current_page");
                               ("perPage", "pagination.page_size");
                               ("total", "pagination.total_count")] |}.
Proof. reflexivity. Qed.

Example test_detectPagination_offset :
  option_map (fun p => (p_type p, offsetParam p, limitParam p))
             (detectPagination offset_meta)
  = Some ("offset", Some "offset", Some "limit").
Proof. reflexivity. Qed.

Example test_scenario_1 :
  inferSchema scenario_1
  = Some {| samplePath := "$";
            fields := [mkField "id" "integer" (num 1);
                       mkField "name" "string" (VStr "A")];
            pagination := None |}.
Proof. reflexivity. Qed.

Example test_scenario_2 :
  option_map (fun s => (samplePath s, pagination s)) (inferSchema orders_page)
  = Some ("$.orders",
          Some {| p_type := "page";
                  pageParam := Some "page";
                  offsetParam := None;
                  limitParam := Some "limit";
                  metaPaths := Some [("currentPage", "meta.page");
                                     ("perPage", "meta.per_page");
                                     ("total", "meta.total")] |}).
Proof. reflexivity. Qed.

Example test_union_type :
  map (fun f => (name f, type f)) (mergeFieldTypes mixed_samples)
  = [("id", "integer"); ("value", "boolean|integer|string"); ("extra", "null")].
Proof. reflexivity. Qed.

Example test_mask_headers :
  maskSensitiveHeaders (Some sample_headers)
  = [("Authorization", "<masked>"); ("Content-Type", "application/json");
     ("X-Api-Key", "<masked>")]
  /\ maskSensitiveHeaders (Some []) = []
  /\ maskSensitiveHeaders None = [].
Proof. repeat split. Qed.

Example test_wrapper_columns :
  map (fun c => (c_name c, c_key c, c_type c, c_selector c))
      (t_columns (table (components (generateImportWrapper users_schema (mkOpts None)))))
  = [("id", "id", "number", "$[].id"); ("email", "email", "text", "$[].email");
     ("active", "active", "boolean", "$[].active")].
Proof. reflexivity. Qed.

Example test_wrapper_pagination :
  let w := generateImportWrapper page_only_schema (mkOpts None) in
  t_dataBinding (table (components w)) = "{{datasource.data.orders}}"
  /\ c_pagination (components w)
     = Some {| pc_component := "Pagination";
               pc_type := "page";
               pc_pageParam := "page";
               pc_limitParam := "limit";
               pc_metaPaths := [] |}
  /\ ds_headers (w_datasource w) = [("Authorization", "<masked>")].
Proof. repeat split. Qed.

End UnitTests.

(** * Further properties of the fetcher *)

Section FetcherMoreFacts.

Import Fetcher FetcherSpec FetcherMore.

Lemma first_response_or_none axios n :
  (forall j, (j < n)%nat -> received (axios j) = None)
  \/ exists k r, (k < n)%nat /\ first_response axios k r.
Proof.
  induction n as [| n [Hnone | (k & r & Hk & Hfirst)]].
  - left. intros j Hj. lia.
  - destruct (received (axios n)) as [r |] eqn:Hn.
    + right. exists n, r. split; [lia |]. by split.
    + left. intros j Hj. destruct (decide (j = n)) as [-> | Hne]; [done |].
      apply Hnone. lia.
  - right. exists k, r. split; [lia | done].
Qed.

(** Every run with a non-negative [maxRetries] has one of two shapes. *)
Lemma fetch_run_shape axios maxRetries initialDelay :
  0 <= maxRetries ->
  (exists k r res,
      (k <= Z.to_nat maxRetries)%nat
      /\ first_response axios k r
      /\ fetchWithRetry axios maxRetries initialDelay
         = (backoff_schedule axios initialDelay k, Return res)
      /\ status res = r_status r
      /\ errorType res = None
      /\ success res = is_resolved (axios k))
  \/ (never_answers axios maxRetries
      /\ exists e,
           axios (Z.to_nat maxRetries) = Rejected e
           /\ fetchWithRetry axios maxRetries initialDelay
              = (backoff_schedule axios initialDelay (Z.to_nat maxRetries),
                 Return (exhausted_result e))).
Proof.
  intros Hpos.
  destruct (first_response_or_none axios (S (Z.to_nat maxRetries)))
    as [Hnone | (k & r & Hk & Hfirst)].
  - right.
    assert (Hnever : never_answers axios maxRetries).
    { intros j Hj. apply Hnone. lia. }
    split; [done |].
    destruct (fetchLoop_exhausted axios maxRetries initialDelay
                (Z.to_nat maxRetries) 0 None) as (e & He & Hrun); [lia | done |].
    pose proof (failed_attempts_schedule axios initialDelay
                  (Z.to_nat maxRetries) 0) as Hsched.
    rewrite Nat.add_0_l in He, Hrun, Hsched. rewrite Hsched in Hrun.
    exists e. split; [done |]. exact Hrun.
  - left.
    assert (Hle : Z.of_nat k <= maxRetries) by lia.
    pose proof (fetchWithRetry_until_response axios maxRetries initialDelay k r
                  Hle Hfirst) as Htr.
    destruct (fetchLoop_response_is_last axios maxRetries initialDelay
                (Z.to_nat (maxRetries + 1)) 0 None
                (failed_attempts axios initialDelay 0 k) k (axios k) [] r)
      as (_ & res & Hres & Hst & Hty & Hsu);
      [lia | exact Htr | apply Hfirst |].
    pose proof (failed_attempts_schedule axios initialDelay k 0) as Hsched.
    rewrite Nat.add_0_l in Hsched. rewrite Hsched in Htr.
    exists k, r, res. repeat split; try done; try lia; try apply Hfirst.
    unfold fetchWithRetry in *.
    destruct (fetchLoop axios maxRetries initialDelay 0 None) as [tr c].
    simpl in *. by subst.
Qed.

Lemma requests_backoff_schedule axios initialDelay k :
  requests (backoff_schedule axios initialDelay k) = seq 0 (S k).
Proof.
  unfold backoff_schedule. simpl. f_equal. apply requests_schedule.
Qed.

Lemma sleeps_backoff_schedule axios initialDelay k :
  sleeps (backoff_schedule axios initialDelay k)
  = map (fun j => initialDelay * 2 ^ (Z.of_nat j - 1)) (seq 1 k).
Proof. unfold backoff_schedule. simpl. apply sleeps_schedule. Qed.

(** X1: with a non-negative [maxRetries] the call always returns a result;
    it issues requests 0 .. k for some k <= maxRetries, sleeps exactly
    between consecutive requests (never after the last one), and the wait
    before request j is [initialDelay * 2^(j-1)]. *)
Theorem fetch_returns_within_budget axios maxRetries initialDelay :
  0 <= maxRetries ->
  let run := fetchWithRetry axios maxRetries initialDelay in
  exists k res,
    (k <= Z.to_nat maxRetries)%nat
    /\ snd run = Return res
    /\ fst run = backoff_schedule axios initialDelay k
    /\ requests (fst run) = seq 0 (S k)
    /\ sleeps (fst run)
       = map (fun j => initialDelay * 2 ^ (Z.of_nat j - 1)) (seq 1 k)
    /\ length (sleeps (fst run)) = (length (requests (fst run)) - 1)%nat.
Proof.
  intros Hpos run. subst run.
  destruct (fetch_run_shape axios maxRetries initialDelay Hpos)
    as [(k & r & res & Hk & _ & -> & _) | (_ & e & _ & ->)]; cbn [fst snd].
  - exists k, res. rewrite requests_backoff_schedule, sleeps_backoff_schedule.
    repeat split; try done. rewrite length_map, !length_seq. lia.
  - exists (Z.to_nat maxRetries), (exhausted_result e).
    rewrite requests_backoff_schedule, sleeps_backoff_schedule.
    repeat split; try done. rewrite length_map, !length_seq. lia.
Qed.

(** Three refused connections with [maxRetries = 2]. *)
Lemma fetch_returns_within_budget_witness :
  let run := fetchWithRetry always_refused 2 500 in
  exists k res,
    (k <= Z.to_nat 2)%nat
    /\ snd run = Return res
    /\ fst run = backoff_schedule always_refused 500 k
    /\ requests (fst run) = seq 0 (S k)
    /\ sleeps (fst run)
       = map (fun j => 500 * 2 ^ (Z.of_nat j - 1)) (seq 1 k)
    /\ length (sleeps (fst run)) = (length (requests (fst run)) - 1)%nat.
Proof. apply (fetch_returns_within_budget always_refused 2 500). lia. Defined.

(** X2: the call throws exactly when [maxRetries] is negative, and then
    it has made no request at all. *)
Theorem fetch_throws_iff_negative axios maxRetries initialDelay :
  (snd (fetchWithRetry axios maxRetries initialDelay) = ThrowTypeError
   <-> maxRetries < 0)
  /\ (maxRetries < 0 -> fst (fetchWithRetry axios maxRetries initialDelay) = []).
Proof.
  split; [split |].
  - intros Hthrow. destruct (Z.lt_ge_cases maxRetries 0) as [| Hpos]; [done |].
    destruct (fetch_run_shape axios maxRetries initialDelay Hpos)
      as [(k & r & res & _ & _ & Hrun & _) | (_ & e & _ & Hrun)];
      rewrite Hrun in Hthrow; discriminate.
  - intros Hneg. unfold fetchWithRetry.
    rewrite (fetchLoop_exit axios maxRetries initialDelay 0 None); [done | lia].
  - intros Hneg. unfold fetchWithRetry.
    rewrite (fetchLoop_exit axios maxRetries initialDelay 0 None); [done | lia].
Qed.

Lemma sum_app (l1 l2 : list Z) :
  fold_right Z.add 0 (l1 ++ l2) = fold_right Z.add 0 l1 + fold_right Z.add 0 l2.
Proof. induction l1 as [| x l1 IH]; simpl; lia. Qed.

(** The waits of k retries add up to [initialDelay * (2^k - 1)]. *)
Lemma sum_backoff initialDelay k :
  fold_right Z.add 0
    (map (fun j => initialDelay * 2 ^ (Z.of_nat j - 1)) (seq 1 k))
  = initialDelay * (2 ^ Z.of_nat k - 1).
Proof.
  induction k as [| k IH]; [simpl; rewrite Z.mul_0_r; done |].
  rewrite seq_S, map_app, sum_app, IH. cbn [map fold_right].
  replace (Z.of_nat (1 + k) - 1) with (Z.of_nat k) by lia.
  rewrite Nat2Z.inj_succ, Z.pow_succ_r by lia. lia.
Qed.

(** X3: with non-negative parameters a call never sleeps more than
    [initialDelay * (2^maxRetries - 1)] milliseconds in total, and sleeps
    exactly that long when no attempt receives a response. *)
Theorem fetch_total_sleep_bound axios maxRetries initialDelay :
  0 <= maxRetries -> 0 <= initialDelay ->
  let run := fetchWithRetry axios maxRetries initialDelay in
  total_sleep (fst run) <= initialDelay * (2 ^ maxRetries - 1)
  /\ (never_answers axios maxRetries ->
      total_sleep (fst run) = initialDelay * (2 ^ maxRetries - 1)).
Proof.
  intros Hpos Hd run. subst run. unfold total_sleep.
  destruct (fetch_run_shape axios maxRetries initialDelay Hpos)
    as [(k & r & res & Hk & Hfirst & -> & _) | (_ & e & _ & ->)]; cbn [fst];
    rewrite sleeps_backoff_schedule, sum_backoff.
  - assert (Hpow : 2 ^ Z.of_nat k <= 2 ^ maxRetries)
      by (apply Z.pow_le_mono_r; lia).
    split; [nia |]. intros Hnever.
    destruct Hfirst as [Hr _]. rewrite Hnever in Hr by lia. discriminate.
  - rewrite Z2Nat.id by done. split; [lia | done].
Qed.

(** Scenario 4 of the specification: 500 ms and 1000 ms, 1500 ms in all. *)
Lemma fetch_total_sleep_bound_witness :
  let run := fetchWithRetry always_refused 2 500 in
  total_sleep (fst run) <= 500 * (2 ^ 2 - 1)
  /\ (never_answers always_refused 2 ->
      total_sleep (fst run) = 500 * (2 ^ 2 - 1)).
Proof. apply (fetch_total_sleep_bound always_refused 2 500); lia. Defined.

(** X4: when every response carries a non-zero status, the caller's test
    [!success && status === 0] holds of the result exactly when no attempt
    received a response. *)
Theorem network_error_iff_never_answered axios maxRetries initialDelay :
  0 <= maxRetries ->
  (forall j r, received (axios j) = Some r -> r_status r <> 0) ->
  exists res,
    snd (fetchWithRetry axios maxRetries initialDelay) = Return res
    /\ (is_network_error res = true <-> never_answers axios maxRetries).
Proof.
  intros Hpos Hstatus.
  destruct (fetch_run_shape axios maxRetries initialDelay Hpos)
    as [(k & r & res & Hk & Hfirst & -> & Hst & _) | (Hnever & e & _ & ->)];
    cbn [snd].
  - exists res. split; [done |]. destruct Hfirst as [Hr _].
    apply Hstatus in Hr as Hnz. unfold is_network_error. split.
    + intros Hne. apply andb_true_iff in Hne as [_ Hz].
      apply Z.eqb_eq in Hz. congruence.
    + intros Hnever. rewrite Hnever in Hr by lia. discriminate.
  - exists (exhausted_result e). split; [done |]. by split.
Qed.

Lemma network_error_iff_never_answered_witness :
  exists res,
    snd (fetchWithRetry refused_then_503 2 500) = Return res
    /\ (is_network_error res = true <-> never_answers refused_then_503 2).
Proof.
  apply (network_error_iff_never_answered refused_then_503 2 500); [lia |].
  intros [| j] r; simpl; [discriminate |]. intros [= <-]. discriminate.
Defined.

End FetcherMoreFacts.

Section FetcherUtilFacts.

Import Fetcher FetcherSpec FetcherUtil FetcherMore.

(** X5: a status of 401, 403, 404, 429 or at least 500 decides the hint
    alone, whatever the error type; for every other status the hint
    depends on the error type only. *)
Theorem generateHints_status_first (status : Z) (errorType : option string) :
  (status_hinted status = true ->
   forall errorType', generateHints status errorType' = generateHints status errorType)
  /\ (status_hinted status = false ->
      forall status', status_hinted status' = false ->
        generateHints status' errorType = generateHints status errorType).
Proof.
  unfold status_hinted, generateHints. split.
  - intros H e'.
    destruct (status =? 401), (status =? 403), (status =? 404),
      (status =? 429), (status >=? 500); done.
  - intros H s' H'.
    destruct (status =? 401), (status =? 403), (status =? 404),
      (status =? 429), (status >=? 500); try done.
    destruct (s' =? 401), (s' =? 403), (s' =? 404),
      (s' =? 429), (s' >=? 500); done.
Qed.

(** X6: the hint shown after the retries are exhausted.  An error without
    a code, or with the code ECONNREFUSED, is explained as "cannot
    connect", the codes ETIMEDOUT and ECONNABORTED as a timeout, and any
    other code (a DNS failure, say) gets the generic hint. *)
Theorem generateHints_exhausted (e : error) :
  let hint := generateHints 0 (errorType (exhausted_result e)) in
  ((e_code e = None \/ e_code e = Some "" \/ e_code e = Some "ECONNREFUSED"
    \/ e_code e = Some "NETWORK_ERROR") -> hint = hint_connect)
  /\ ((e_code e = Some "ETIMEDOUT" \/ e_code e = Some "ECONNABORTED") ->
      hint = hint_timeout)
  /\ (forall c, e_code e = Some c ->
        c <> "" -> c <> "ECONNREFUSED" -> c <> "NETWORK_ERROR" ->
        c <> "ETIMEDOUT" -> c <> "ECONNABORTED" ->
        hint = hint_generic).
Proof.
  intros hint. subst hint. unfold generateHints, exhausted_result. cbn [errorType].
  cbn [Z.eqb Z.geb Z.compare is_code]. split; [| split].
  - intros [-> | [-> | [-> | ->]]]; reflexivity.
  - intros [-> | ->]; reflexivity.
  - intros c -> H0 H1 H2 H3 H4. cbn [or_default].
    destruct (String.eqb_spec c ""); [done |].
    destruct (String.eqb_spec c "ECONNREFUSED"); [done |].
    destruct (String.eqb_spec c "NETWORK_ERROR"); [done |].
    destruct (String.eqb_spec c "ETIMEDOUT"); [done |].
    destruct (String.eqb_spec c "ECONNABORTED"); [done |].
    reflexivity.
Qed.

Lemma length_substring0 s n :
  String.length (String.substring 0 n s) = Nat.min n (String.length s).
Proof.
  revert s. induction n as [| n IH]; intros [| c s]; simpl; try done.
  by rewrite IH.
Qed.

Lemma length_append_string (s t : string) :
  String.length (s +:+ t) = (String.length s + String.length t)%nat.
Proof. induction s as [| c s IH]; [done |]. simpl. cbn. by rewrite IH. Qed.

Variable JSON_stringify : value -> option string.

(** X7: [truncate] throws exactly for a non-string whose JSON text is
    [undefined]; otherwise a text that fits is returned unchanged, and a
    longer one is cut to its first [maxLength] characters followed by
    "...", so that the result may be up to [maxLength + 3] characters
    long, never more. *)
Theorem truncate_bound (text : value) (maxLength : Z) :
  let source := match text with VStr s => Some s | _ => JSON_stringify text end in
  match truncate JSON_stringify text maxLength with
  | None => source = None
  | Some out =>
      exists s,
        source = Some s
        /\ (Z.of_nat (String.length s) <= maxLength -> out = s)
        /\ (maxLength < Z.of_nat (String.length s) ->
            out = String.substring 0 (Z.to_nat maxLength) s +:+ "..."
            /\ Z.of_nat (String.length out) = Z.max 0 maxLength + 3)
        /\ Z.of_nat (String.length out) <= Z.max 0 maxLength + 3
  end.
Proof.
  intros source. unfold truncate. fold source. destruct source as [s |]; [| done].
  destruct (Z.leb_spec (Z.of_nat (String.length s)) maxLength) as [Hfit | Hlong].
  - exists s. repeat split; try done; lia.
  - assert (Hlen : Z.of_nat (String.length (substring0 s maxLength +:+ "..."))
                   = Z.max 0 maxLength + 3).
    { unfold substring0. rewrite length_append_string, length_substring0.
      simpl String.length. lia. }
    exists s. repeat split; try done; lia.
Qed.

End FetcherUtilFacts.

(** * Further properties of schema inference *)

Section SchemaMoreFacts.

Import Schema SchemaSpec PipelineSpec.

(** X8: [findArrayPath] returns the name of the first property, in
    iteration order, whose value is a non-empty array: empty arrays and
    other values before it are skipped.  It returns [null] for an object
    without such a property, and for everything that is not a plain
    object, a top-level array included. *)
Theorem findArrayPath_first_nonempty (obj : value) :
  match findArrayPath obj with
  | Some key =>
      exists before array after,
        obj = VObj (before ++ (key, VArr array) :: after)
        /\ array <> []
        /\ Forall (fun kv => nonempty_array (snd kv) = false) before
  | None =>
      forall props, obj = VObj props ->
        Forall (fun kv => nonempty_array (snd kv) = false) props
  end.
Proof.
  destruct obj as [| | | | | items | props]; try done.
  unfold findArrayPath. simpl.
  pose proof (findArrayPath_loop_first props) as H.
  destruct (findArrayPath_loop props) as [key |].
  - destruct H as (before & array & after & -> & Hne & Hb). eauto 10.
  - by intros ? [= <-].
Qed.

Lemma slice5_take5 (l : list value) : slice5 l = take 5 l.
Proof.
  unfold slice5. destruct (decide (5 <= length l)%nat).
  - by rewrite Nat.min_l.
  - rewrite Nat.min_r by lia. by rewrite !take_ge by lia.
Qed.

Lemma slice5_first_five (l : list value) : slice5 (take 5 l) = slice5 l.
Proof. rewrite !slice5_take5. apply take_take. Qed.

Lemma findArrayPath_loop_trim props :
  findArrayPath_loop (map (fun kv => (fst kv, first_five (snd kv))) props)
  = findArrayPath_loop props.
Proof.
  induction props as [| [k v] props IH]; simpl; [done |].
  destruct v as [| | | | | [| x items] |]; simpl; by rewrite ?IH.
Qed.

Lemma get_prop_trim props key :
  get_prop (map (fun kv => (fst kv, first_five (snd kv))) props) key
  = first_five (get_prop props key).
Proof.
  induction props as [| [k v] props IH]; simpl; [done |].
  destruct (String.eqb k key); [done | exact IH].
Qed.

Lemma detectPagination_loop_trim props :
  detectPagination_loop (map (fun kv => (fst kv, first_five (snd kv))) props)
  = detectPagination_loop props.
Proof.
  induction props as [| [k v] props IH]; simpl; [done |].
  rewrite IH. by destruct v.
Qed.

(** X9: array elements beyond the fifth never influence the schema:
    cutting the top-level array, or every array-valued property of the
    top-level object, down to its first five elements leaves the result
    of [inferSchema] unchanged. *)
Theorem inferSchema_first_five (data : value) :
  inferSchema (trim_records data) = inferSchema data.
Proof.
  destruct data as [| | | | | items | props]; try done.
  - destruct items as [| x items]; [done |].
    unfold trim_records, first_five, inferSchema.
    change (take 5 (x :: items)) with (x :: take 4 items).
    change (x :: take 4 items) with (take 5 (x :: items)).
    by rewrite slice5_first_five.
  - unfold trim_records, inferSchema, findArrayPath, detectPagination, for_in.
    cbn [Array_isArray].
    rewrite findArrayPath_loop_trim, detectPagination_loop_trim.
    destruct (findArrayPath_loop props) as [key |]; [| done].
    destruct (String.eqb key ""); [done |].
    rewrite get_prop_trim.
    destruct (get_prop props key); try done. simpl.
    by rewrite slice5_first_five.
Qed.

Lemma mergeFieldTypes_NoDup samples : NoDup (map name (mergeFieldTypes samples)).
Proof.
  rewrite mergeFieldTypes_scan.
  destruct (represents_scan (occurrences samples)) as [Hnames _].
  rewrite map_map. simpl.
  change (map (fun x => fi_name x)) with (map fi_name).
  rewrite Hnames. apply NoDup_first_seen.
Qed.

Lemma findArrayPath_loop_has_key props key :
  findArrayPath_loop props = Some key -> has_key key props = true.
Proof.
  intros Hfind. pose proof (findArrayPath_loop_first props) as H.
  rewrite Hfind in H. destruct H as (before & array & after & -> & _).
  unfold has_key. rewrite existsb_app. simpl.
  by rewrite String.eqb_refl, orb_true_r.
Qed.

(** X10: every schema [inferSchema] returns is well formed: its field
    names are pairwise distinct, and either the input is a top-level
    array, the path is "$" and there is no pagination, or the input is an
    object, the path is "$." followed by the non-empty name of one of its
    properties, and the pagination is what [detectPagination] finds. *)
Theorem inferSchema_well_formed (data : value) :
  match inferSchema data with
  | Some s =>
      NoDup (map name (fields s))
      /\ ((samplePath s = "$" /\ pagination s = None
           /\ exists items, data = VArr items /\ items <> [])
          \/ (exists key props,
                key <> "" /\ data = VObj props /\ has_key key props = true
                /\ samplePath s = "$." +:+ key
                /\ pagination s = detectPagination data))
  | None => True
  end.
Proof.
  destruct data as [| | | | | items | props]; try done.
  - destruct items as [| x items]; [done |].
    cbn [inferSchema fields samplePath pagination].
    split; [apply mergeFieldTypes_NoDup |]. left. eauto.
  - unfold inferSchema, findArrayPath. cbn [Array_isArray].
    destruct (findArrayPath_loop props) as [key |] eqn:Hfind; [| done].
    destruct (String.eqb_spec key "") as [| Hkey]; [done |].
    destruct (get_prop props key); try done. cbn [fields samplePath pagination].
    split; [apply mergeFieldTypes_NoDup |]. right.
    exists key, props. repeat split; try done.
    by apply findArrayPath_loop_has_key.
Qed.

End SchemaMoreFacts.

Section MergeMoreFacts.

Import Schema Generator SchemaSpec GeneratorSpec PipelineSpec.

Lemma inferType_tag v : inferType v ∈ type_tags.
Proof.
  unfold type_tags. destruct v as [| | b | n | s | items | props]; simpl;
    try destruct (Number_isInteger n); set_solver.
Qed.

Lemma occurrences_tagged samples g :
  g ∈ occurrences samples -> type g ∈ type_tags.
Proof.
  unfold occurrences. intros Hg.
  apply list_elem_of_In, in_flat_map in Hg as (s & _ & Hg).
  assert (Hmap : forall ps, In g (map (fun p => mkField (fst p) (inferType (snd p)) (snd p)) ps)
                            -> type g ∈ type_tags).
  { intros ps Hin. apply in_map_iff in Hin as (p & <- & _). apply inferType_tag. }
  destruct s; simpl in Hg; try done; by apply Hmap in Hg.
Qed.

Lemma observed_tags_elem n occ t :
  t ∈ observed_tags n occ <-> exists g, g ∈ occ /\ name g = n /\ type g = t.
Proof.
  unfold observed_tags, occurrences_of.
  rewrite elem_of_first_seen, map_is_fmap, list_elem_of_fmap. split.
  - intros (g & -> & Hg). apply list_elem_of_filter in Hg as [Hn Hg]. eauto.
  - intros (g & Hg & Hn & <-). exists g. split; [done |].
    by apply list_elem_of_filter.
Qed.

Lemma concat_two_includes (a b : string) (l : list string) :
  includes (String.concat "|" (a :: b :: l)) "|" = true.
Proof. apply includes_contains. by exists a, (String.concat "|" (b :: l)). Qed.

Lemma merged_type_cases (tags : list string) :
  (exists t, tags = [t] /\ merged_type tags = t)
  \/ (length tags <> 1%nat /\ tags <> []
      /\ includes (merged_type tags) "|" = true)
  \/ tags = [].
Proof.
  destruct tags as [| a [| b l]]; [by right; right | left; eauto |].
  right; left. split; [done |]. split; [done |].
  rewrite merged_type_union by done.
  pose proof (Array_sort_Permutation (a :: b :: l)) as Hp.
  apply Permutation_length in Hp.
  destruct (Array_sort (a :: b :: l)) as [| x [| y l']]; try done.
  apply concat_two_includes.
Qed.

Lemma mapFieldType_tag t :
  t ∈ type_tags ->
  mapFieldType t ∈ ui_types
  /\ (mapFieldType t = "number" <-> t = "integer" \/ t = "number")
  /\ (mapFieldType t = "boolean" <-> t = "boolean").
Proof.
  unfold type_tags. rewrite !elem_of_cons, elem_of_nil.
  intros [-> | [-> | [-> | [-> | [-> | [-> | [-> | [-> | []]]]]]]]];
    vm_compute mapFieldType;
    (split; [unfold ui_types; set_solver |]);
    split; split; intros H; try done;
    try (destruct H as [H | H]; done); auto.
Qed.

(** What [mergeFieldTypes] returns, entry by entry. *)
Lemma mergeFieldTypes_entry samples f :
  f ∈ mergeFieldTypes samples ->
  let occ := occurrences samples in
  name f ∈ map name occ
  /\ type f = merged_type (observed_tags (name f) occ)
  /\ observed_tags (name f) occ <> [].
Proof.
  intros Hf occ. rewrite mergeFieldTypes_scan in Hf. fold occ in Hf.
  destruct (represents_scan occ) as [Hnames Hentries].
  rewrite map_is_fmap in Hf. apply list_elem_of_fmap in Hf as (fi & -> & Hfi).
  eapply Forall_forall in Hentries as (Hty & g0 & Hfirst & Hg0 & _); [| exact Hfi].
  simpl. rewrite <- Hty.
  assert (Hg0in : g0 ∈ occ).
  { destruct Hfirst as (before & after & -> & _). set_solver. }
  split; [| split; [done |]].
  - rewrite <- Hg0, map_is_fmap. by apply list_elem_of_fmap_2.
  - intros Hnil. assert (Ht : type g0 ∈ fi_types fi).
    { rewrite Hty. apply observed_tags_elem. eauto. }
    rewrite Hnil in Ht. by apply elem_of_nil in Ht.
Qed.

(** X11: every field type that [mergeFieldTypes] produces maps to one of
    the three UI types.  The column is a number exactly when all samples
    that have the field agree on [integer] or all agree on [number] (a
    column mixing whole and fractional values is text), and it is a
    boolean exactly when they all agree on [boolean]. *)
Theorem merged_types_map_to_ui (samples : list value) :
  Forall (fun f =>
    mapFieldType (type f) ∈ ui_types
    /\ (mapFieldType (type f) = "number" <->
        exists t, (t = "integer" \/ t = "number")
                  /\ forall g, g ∈ occurrences samples -> name g = name f ->
                               type g = t)
    /\ (mapFieldType (type f) = "boolean" <->
        forall g, g ∈ occurrences samples -> name g = name f ->
                  type g = "boolean"))
    (mergeFieldTypes samples).
Proof.
  apply Forall_forall. intros f Hf.
  destruct (mergeFieldTypes_entry samples f Hf) as (_ & Hty & Hne).
  set (occ := occurrences samples) in *.
  set (tags := observed_tags (name f) occ) in *.
  assert (Htag : forall t, t ∈ tags -> t ∈ type_tags).
  { intros t Ht. apply observed_tags_elem in Ht as (g & Hg & _ & <-).
    by eapply occurrences_tagged. }
  assert (Hnd : NoDup tags) by apply NoDup_first_seen.
  assert (Hagree : forall t, (forall g, g ∈ occ -> name g = name f -> type g = t) ->
                             tags = [t]).
  { intros t Hall. destruct tags as [| a [| b l]] eqn:E; [done | |].
    - f_equal. assert (Ha : a ∈ tags) by (rewrite E; set_solver).
      apply observed_tags_elem in Ha as (g & Hg & Hn & <-). by apply Hall.
    - assert (Ha : a ∈ tags) by (rewrite E; set_solver).
      assert (Hb : b ∈ tags) by (rewrite E; set_solver).
      apply observed_tags_elem in Ha as (ga & Hga & Hna & <-).
      apply observed_tags_elem in Hb as (gb & Hgb & Hnb & <-).
      apply NoDup_cons in Hnd as [Hnotin _]. exfalso. apply Hnotin.
      rewrite (Hall ga), (Hall gb) by done. set_solver. }
  destruct (merged_type_cases tags) as [(t & Htags & Hm) | [(Hlen & _ & Hinc) | Hnil]];
    [| | done].
  - rewrite Hty, Hm.
    assert (Ht : t ∈ type_tags) by (apply Htag; rewrite Htags; set_solver).
    destruct (mapFieldType_tag t Ht) as (Hui & Hnum & Hbool).
    assert (Hall : forall g, g ∈ occ -> name g = name f -> type g = t).
    { intros g Hg Hn. assert (Hin : type g ∈ tags)
        by (apply observed_tags_elem; eauto).
      rewrite Htags in Hin. by apply list_elem_of_singleton in Hin. }
    assert (Hsome : exists g, g ∈ occ /\ name g = name f /\ type g = t).
    { apply observed_tags_elem. fold tags. rewrite Htags. set_solver. }
    destruct Hsome as (g0 & Hg0 & Hn0 & Ht0).
    split; [done |]. split.
    + rewrite Hnum. split.
      * intros Ht'. exists t. split; [done | exact Hall].
      * intros (t' & Ht' & Hall'). rewrite <- Ht0. by rewrite (Hall' g0).
    + rewrite Hbool. split.
      * intros ->. exact Hall.
      * intros Hall'. rewrite <- Ht0. by apply Hall'.
  - rewrite Hty.
    assert (Htext : mapFieldType (merged_type tags) = "text").
    { apply includes_contains in Hinc as (pre & post & ->).
      apply mapFieldType_union. }
    rewrite Htext. split; [unfold ui_types; set_solver |].
    split; (split; [done |]).
    + intros (t & _ & Hall). apply Hagree in Hall. fold tags in Hall.
      rewrite Hall in Hlen. done.
    + intros Hall. apply Hagree in Hall. fold tags in Hall.
      rewrite Hall in Hlen. done.
Qed.

End MergeMoreFacts.

Section MergeOrderFacts.

Import Schema SchemaSpec PipelineSpec.

Lemma finish_new_entry f : finish_field (new_entry f) = f.
Proof. by destruct f. Qed.

(** Fields with fresh names are appended in order. *)
Lemma merge_fresh fs : forall acc,
  NoDup (map fi_name acc ++ map name fs) ->
  fold_left merge_field fs acc = acc ++ map new_entry fs.
Proof.
  induction fs as [| f fs IH]; intros acc Hnd; simpl.
  - by rewrite app_nil_r.
  - assert (Hfresh : map_has acc (name f) = false).
    { destruct (map_has acc (name f)) eqn:E; [| done].
      apply map_has_elem_of in E. apply NoDup_app in Hnd as (_ & Hdisj & _).
      exfalso. apply (Hdisj _ E). simpl. set_solver. }
    unfold merge_field at 2. rewrite Hfresh. rewrite IH.
    + by rewrite <- app_assoc.
    + rewrite (map_is_fmap fi_name), fmap_app, <- app_assoc. exact Hnd.
Qed.

Lemma NoDup_name_inj (fs : list Field) f g :
  NoDup (map name fs) -> f ∈ fs -> g ∈ fs -> name f = name g -> f = g.
Proof.
  induction fs as [| h fs IH]; simpl; intros Hnd Hf Hg Heq.
  - by apply elem_of_nil in Hf.
  - apply NoDup_cons in Hnd as [Hh Hnd].
    assert (Hin : forall x, x ∈ fs -> name x ∈ map name fs).
    { intros x Hx. rewrite map_is_fmap. by apply list_elem_of_fmap_2. }
    apply elem_of_cons in Hf as [-> | Hf]; apply elem_of_cons in Hg as [-> | Hg];
      try done.
    + exfalso. apply Hh. rewrite Heq. by apply Hin.
    + exfalso. apply Hh. rewrite <- Heq. by apply Hin.
    + by apply IH.
Qed.

(** Scanning a field that is already recorded with the same type changes
    nothing. *)
Lemma merge_known fs f :
  NoDup (map name fs) -> f ∈ fs ->
  merge_field (map new_entry fs) f = map new_entry fs.
Proof.
  intros Hnd Hf. unfold merge_field.
  assert (Hnames : map fi_name (map new_entry fs) = map name fs)
    by (by rewrite map_map).
  assert (Hhas : map_has (map new_entry fs) (name f) = true).
  { apply map_has_elem_of. rewrite Hnames, map_is_fmap.
    by apply list_elem_of_fmap_2. }
  rewrite Hhas, map_add_type_pointwise by (by rewrite Hnames).
  rewrite map_map. apply map_ext_in. intros g Hg.
  apply list_elem_of_In in Hg. unfold add_type_to, new_entry. simpl.
  destruct (String.eqb_spec (name g) (name f)) as [Heq | Hne]; [| done].
  assert (g = f) as -> by (by eapply NoDup_name_inj).
  unfold set_add. simpl. by rewrite String.eqb_refl.
Qed.

Lemma merge_all_known fs fs' :
  NoDup (map name fs) -> Forall (fun f => f ∈ fs) fs' ->
  fold_left merge_field fs' (map new_entry fs) = map new_entry fs.
Proof.
  intros Hnd. induction fs' as [| f fs' IH]; simpl; intros Hall; [done |].
  apply Forall_cons in Hall as [Hf Hall]. rewrite merge_known by done.
  by apply IH.
Qed.

(** X12: samples that are copies of one record with distinct property
    names yield exactly that record's fields, in its own order, each with
    its single tag and its value. *)
Theorem mergeFieldTypes_identical_samples (s : value) (n : nat) :
  NoDup (map name (inferFields s)) ->
  mergeFieldTypes (replicate (S n) s) = inferFields s.
Proof.
  intros Hnd. rewrite mergeFieldTypes_scan. unfold occurrences. simpl.
  rewrite fold_left_app, (merge_fresh (inferFields s) []) by done. simpl.
  rewrite merge_all_known; [| done |].
  - rewrite map_map. rewrite <- (map_id (inferFields s)) at 2.
    apply map_ext. apply finish_new_entry.
  - apply Forall_forall. intros f Hf.
    apply list_elem_of_In, in_flat_map in Hf as (s' & Hs' & Hf).
    apply list_elem_of_In, elem_of_replicate in Hs' as [-> _].
    by apply list_elem_of_In.
Qed.

(** Three copies of the record of the [inferFields] unit test. *)
Lemma mergeFieldTypes_identical_samples_witness :
  mergeFieldTypes (replicate 3 TestData.basic_sample)
  = inferFields TestData.basic_sample.
Proof.
  apply (mergeFieldTypes_identical_samples TestData.basic_sample 2).
  apply (bool_decide_unpack _). vm_compute. reflexivity.
Defined.

Lemma ascii_compare_trans a b c :
  Ascii.compare a b <> Gt -> Ascii.compare b c <> Gt -> Ascii.compare a c <> Gt.
Proof.
  unfold Ascii.compare. rewrite !N.compare_le_iff. lia.
Qed.

Lemma string_compare_trans x : forall y z,
  String.compare x y <> Gt -> String.compare y z <> Gt ->
  String.compare x z <> Gt.
Proof.
  induction x as [| a x IH]; intros [| b y] [| c z]; simpl; try done.
  unfold Ascii.compare.
  destruct (N.compare_spec (N_of_ascii a) (N_of_ascii b)) as [Hab | Hab | Hab];
    destruct (N.compare_spec (N_of_ascii b) (N_of_ascii c)) as [Hbc | Hbc | Hbc];
    destruct (N.compare_spec (N_of_ascii a) (N_of_ascii c)) as [Hac | Hac | Hac];
    try done; try lia.
  apply IH.
Qed.

Lemma string_leb_trans x y z :
  String.leb x y = true -> String.leb y z = true -> String.leb x z = true.
Proof.
  unfold String.leb. intros Hxy Hyz.
  pose proof (string_compare_trans x y z) as H.
  destruct (String.compare x y), (String.compare y z), (String.compare x z);
    try done; exfalso; by apply H.
Qed.

(** The sorted list of a set of tags does not depend on the order in which
    the tags were met. *)
Lemma Array_sort_perm (l l' : list string) :
  l ≡ₚ l' -> Array_sort l = Array_sort l'.
Proof.
  intros Hp.
  apply (StronglySorted_unique_strong (fun a b => String.leb a b = true)).
  - intros a b _ _. apply String.leb_antisym.
  - apply Sorted.Sorted_StronglySorted; [| apply Array_sort_sorted].
    intros a b c. apply string_leb_trans.
  - apply Sorted.Sorted_StronglySorted; [| apply Array_sort_sorted].
    intros a b c. apply string_leb_trans.
  - by rewrite !Array_sort_Permutation.
Qed.

Lemma merged_type_perm (l l' : list string) :
  l ≡ₚ l' -> merged_type l = merged_type l'.
Proof.
  intros Hp. pose proof (Permutation_length Hp) as Hlen.
  destruct l as [| a [| b l]], l' as [| a' [| b' l'']]; try done.
  - apply Permutation_singleton_l in Hp. by injection Hp as ->.
  - rewrite !merged_type_union by done. by rewrite (Array_sort_perm _ _ Hp).
Qed.

Lemma typed_names_elem samples n t :
  (n, t) ∈ typed_names (mergeFieldTypes samples)
  <-> n ∈ map name (occurrences samples)
      /\ t = merged_type (observed_tags n (occurrences samples)).
Proof.
  unfold typed_names. rewrite map_is_fmap, list_elem_of_fmap. split.
  - intros (f & [= -> ->] & Hf).
    destruct (mergeFieldTypes_entry samples f Hf) as (Hn & Ht & _). done.
  - intros [Hn ->].
    pose proof (mergeFieldTypes_scan samples) as Hscan.
    destruct (represents_scan (occurrences samples)) as [Hnames Hentries].
    assert (Hin : n ∈ map name (mergeFieldTypes samples)).
    { rewrite Hscan, map_map. simpl.
      change (map (fun x => fi_name x)) with (map fi_name).
      rewrite Hnames. by apply elem_of_first_seen. }
    rewrite map_is_fmap in Hin. apply list_elem_of_fmap in Hin as (f & -> & Hf).
    exists f. split; [| done].
    destruct (mergeFieldTypes_entry samples f Hf) as (_ & Ht & _). by rewrite Ht.
Qed.

(** X13: the inferred field names and their types do not depend on the
    order of the samples: reordering the samples can only change the order
    of the fields and the sample values they carry. *)
Theorem mergeFieldTypes_order_independent (samples samples' : list value) :
  samples ≡ₚ samples' ->
  forall n t,
    (n, t) ∈ typed_names (mergeFieldTypes samples)
    <-> (n, t) ∈ typed_names (mergeFieldTypes samples').
Proof.
  intros Hp n t. rewrite !typed_names_elem.
  assert (Hocc : occurrences samples ≡ₚ occurrences samples').
  { unfold occurrences. by apply Permutation_flat_map. }
  assert (Hnames : n ∈ map name (occurrences samples)
                   <-> n ∈ map name (occurrences samples')).
  { rewrite !map_is_fmap. by rewrite Hocc. }
  assert (Htags : observed_tags n (occurrences samples)
                  ≡ₚ observed_tags n (occurrences samples')).
  { apply NoDup_Permutation; try apply NoDup_first_seen.
    intros x. rewrite !observed_tags_elem.
    split; intros (g & Hg & Hn & Ht); exists g; (split; [| done]).
    - by rewrite <- Hocc.
    - by rewrite Hocc. }
  rewrite Hnames, (merged_type_perm _ _ Htags). done.
Qed.

(** Three samples, scanned forwards and backwards. *)
Lemma mergeFieldTypes_order_independent_witness :
  ("value", "boolean|integer|string") ∈ typed_names (mergeFieldTypes mixed_samples)
  <-> ("value", "boolean|integer|string")
      ∈ typed_names (mergeFieldTypes (rev mixed_samples)).
Proof.
  apply (mergeFieldTypes_order_independent mixed_samples (rev mixed_samples)).
  apply Permutation_rev.
Defined.

End MergeOrderFacts.

(** * Further properties of the generator *)

Section MaskMoreFacts.

Import Schema Generator GeneratorSpec PipelineSpec.

Lemma set_property_elem masked key v k' v' :
  (k', v') ∈ set_property masked key v ->
  (k' = key /\ v' = v) \/ (k', v') ∈ masked.
Proof.
  induction masked as [| [k x] masked IH]; simpl.
  - intros Hin%list_elem_of_singleton. injection Hin as -> ->. by left.
  - destruct (String.eqb_spec k key) as [-> | Hne].
    + intros [[= -> ->] | Hin]%elem_of_cons; [by left |].
      right. by apply elem_of_cons; right.
    + intros [[= -> ->] | Hin]%elem_of_cons.
      * right. by apply elem_of_cons; left.
      * destruct (IH Hin) as [? | ?]; [by left |].
        right. by apply elem_of_cons; right.
Qed.

Lemma set_property_keys masked key v :
  map fst (set_property masked key v)
  = if decide (key ∈ map fst masked) then map fst masked
    else map fst masked ++ [key].
Proof.
  induction masked as [| [k x] masked IH]; simpl; [done |].
  destruct (String.eqb_spec k key) as [-> | Hne]; simpl.
  - rewrite decide_True by (apply elem_of_cons; by left). done.
  - rewrite IH. destruct (decide (key ∈ map fst masked)) as [Hin | Hout].
    + rewrite decide_True by (apply elem_of_cons; by right). done.
    + rewrite decide_False; [done |].
      intros [? | ?]%elem_of_cons; [congruence | done].
Qed.

(** What the masking loop has built after scanning [hs]. *)
Lemma mask_scan (hs : headers_map) :
  let masked := fold_left mask_step hs [] in
  (forall k v, (k, v) ∈ masked ->
     exists v0, (k, v0) ∈ hs
                /\ v = if isSensitive k then "<masked>" else v0)
  /\ (forall k, k ∈ map fst masked <-> k ∈ map fst hs /\ k <> "__proto__")
  /\ NoDup (map fst masked).
Proof.
  induction hs as [| [key val] hs IH] using rev_ind; simpl.
  - split; [| split]; [by intros k v ?%elem_of_nil | | constructor].
    intros k. split; [by intros ?%elem_of_nil | by intros [?%elem_of_nil _]].
  - destruct IH as (Hval & Hkeys & Hnd).
    rewrite fold_left_app. cbn [fold_left]. unfold mask_step at 1 3 5.
    cbn [fst snd].
    set (masked := fold_left mask_step hs []) in *.
    assert (Hlast : forall k, k ∈ map fst (hs ++ [(key, val)])
                              <-> k ∈ map fst hs \/ k = key).
    { intros k. rewrite (map_is_fmap fst (hs ++ _)), fmap_app, <- (map_is_fmap fst hs).
      simpl. by rewrite elem_of_app, list_elem_of_singleton. }
    unfold set_header. destruct (String.eqb_spec key "__proto__") as [-> | Hne].
    + split; [| split]; [| | done].
      * intros k v Hin. destruct (Hval k v Hin) as (v0 & Hv0 & ->).
        exists v0. set_solver.
      * intros k. rewrite Hkeys, Hlast. split; [tauto |].
        intros [[? | ->] ?]; [tauto | done].
    + split; [| split].
      * intros k v Hin. apply set_property_elem in Hin as [[-> ->] | Hin].
        -- exists val. split; [set_solver | done].
        -- destruct (Hval k v Hin) as (v0 & Hv0 & ->). exists v0. set_solver.
      * intros k. rewrite set_property_keys, Hlast.
        specialize (Hkeys k). destruct (decide (key ∈ map fst masked)) as [Hin | Hout].
        -- split; [tauto |]. intros [[? | ->] ?]; [tauto | done].
        -- rewrite elem_of_app, list_elem_of_singleton. split.
           ++ intros [? | ->]; [tauto | tauto].
           ++ intros [[? | ->] ?]; [tauto | by right].
      * rewrite set_property_keys.
        destruct (decide (key ∈ map fst masked)); [done |].
        apply NoDup_app. split; [done |]. split; [| apply NoDup_singleton].
        intros x Hx ->%list_elem_of_singleton. done.
Qed.

(** X14: whatever the header object holds, the datasource that
    [generateDatasourceJSON] and [generateImportWrapper] emit never carries
    the input value of a header whose name contains, in any case, a word
    of the denylist: every emitted header carries "<masked>" or its input
    value, and "<masked>" when its name contains such a word.  A header
    with an ASCII name that contains none keeps an input value.  The
    emitted names are the input's names other than [__proto__], each
    once. *)
Theorem datasource_headers_never_leak (schema : GenSchema) (opts : Opts) :
  let headers := default [] (g_headers schema) in
  let out := ds_headers (dj_datasource (generateDatasourceJSON schema opts)) in
  (forall k v, (k, v) ∈ out -> sensitive_name k -> v = "<masked>")
  /\ (forall k v, (k, v) ∈ out -> v = "<masked>" \/ (k, v) ∈ headers)
  /\ (forall k v, (k, v) ∈ out -> ascii_name k -> ~ sensitive_name k ->
        (k, v) ∈ headers)
  /\ (forall k, k ∈ map fst out <-> k ∈ map fst headers /\ k <> "__proto__")
  /\ NoDup (map fst out)
  /\ w_datasource (generateImportWrapper schema opts)
     = dj_datasource (generateDatasourceJSON schema opts).
Proof.
  intros headers out. subst out. cbn [generateDatasourceJSON dj_datasource ds_headers].
  fold headers. unfold maskSensitiveHeaders.
  destruct (mask_scan headers) as (Hval & Hkeys & Hnd).
  split; [| split; [| split; [| split; [| split]]]]; try done.
  - intros k v Hin Hs. apply isSensitive_spec in Hs.
    destruct (Hval k v Hin) as (v0 & _ & ->). by rewrite Hs.
  - intros k v Hin. destruct (Hval k v Hin) as (v0 & Hv0 & ->).
    destruct (isSensitive k); [by left | by right].
  - intros k v Hin _ Hs. destruct (Hval k v Hin) as (v0 & Hv0 & ->).
    apply isSensitive_false in Hs. by rewrite Hs.
Qed.

End MaskMoreFacts.

Section FilenameFacts.

Import Schema Generator GeneratorSpec GeneratorFile PipelineSpec.

Lemma dash_non_alnum_chars s :
  Forall (fun c => is_alnum c = true \/ c = "-"%char)
         (string_chars (dash_non_alnum s)).
Proof.
  unfold string_chars. induction s as [| c s IH]; simpl; constructor; [| done].
  destruct (is_alnum c) eqn:E; [by left | by right].
Qed.

Lemma substring0_chars n s :
  string_chars (String.substring 0 n s) = take n (string_chars s).
Proof.
  unfold string_chars. revert s.
  induction n as [| n IH]; intros [| c s]; simpl; try done. by rewrite IH.
Qed.

Lemma before_T_chars s :
  Forall (fun c => c <> "T"%char /\ c <> ":"%char /\ c <> "."%char)
         (string_chars (before_T (dash_colon_dot s))).
Proof.
  unfold string_chars. induction s as [| c s IH]; simpl; [constructor |].
  destruct (Ascii.eqb_spec c ":") as [-> | Hc]; simpl.
  - constructor; [done | exact IH].
  - destruct (Ascii.eqb_spec c ".") as [-> | Hd]; simpl.
    + constructor; [done | exact IH].
    + destruct (Ascii.eqb_spec c "T") as [-> | HT]; simpl; [constructor |].
      constructor; [done | exact IH].
Qed.

(** X15: the URL part of a generated file name has at most 50 characters,
    all of them ASCII letters, digits or "-"; it is "datasource" when the
    schema has no URL or an empty one, and a leading "http://" or
    "https://" does not appear in it.  The date part contains no "T", ":"
    or ".". *)
Theorem generateFilename_safe (now : string) (schema : GenSchema) :
  let slug := sanitizedUrl schema in
  let date := before_T (dash_colon_dot now) in
  generateFilename now schema = "tooljet-" +:+ slug +:+ "-" +:+ date +:+ ".json"
  /\ (String.length slug <= 50)%nat
  /\ Forall (fun c => is_alnum c = true \/ c = "-"%char) (string_chars slug)
  /\ Forall (fun c => c <> "T"%char /\ c <> ":"%char /\ c <> "."%char)
            (string_chars date)
  /\ ((g_url schema = None \/ g_url schema = Some "") -> slug = "datasource")
  /\ (forall rest,
        (g_url schema = Some ("https://" +:+ rest)
         \/ g_url schema = Some ("http://" +:+ rest)) ->
        slug = String.substring 0 50 (dash_non_alnum rest)).
Proof.
  intros slug date. subst slug date. unfold sanitizedUrl.
  split; [done |]. split; [| split; [| split; [| split]]].
  - rewrite length_substring0. lia.
  - rewrite substring0_chars. apply Forall_take, dash_non_alnum_chars.
  - apply before_T_chars.
  - intros [-> | ->]; reflexivity.
  - intros rest [-> | ->]; rewrite !append_cons, append_nil;
      cbn [or_default String.eqb]; f_equal; f_equal; by destruct rest.
Qed.

End FilenameFacts.

(** * Inference followed by generation *)

Section PipelineFacts.

Import Schema Generator SchemaSpec GeneratorSpec PipelineSpec.

Lemma merged_type_ui samples f :
  f ∈ mergeFieldTypes samples -> mapFieldType (type f) ∈ ui_types.
Proof.
  intros Hf. destruct (mergeFieldTypes_entry samples f Hf) as (_ & Hty & Hne).
  rewrite Hty.
  destruct (merged_type_cases (observed_tags (name f) (occurrences samples)))
    as [(t & Htags & ->) | [(_ & _ & Hinc) | Hnil]]; [| | done].
  - apply mapFieldType_tag.
    assert (Ht : t ∈ observed_tags (name f) (occurrences samples))
      by (rewrite Htags; set_solver).
    apply observed_tags_elem in Ht as (g & Hg & _ & <-).
    by eapply occurrences_tagged.
  - apply includes_contains in Hinc as (pre & post & ->).
    rewrite mapFieldType_union. unfold ui_types. set_solver.
Qed.

Lemma expected_pagination_params key inner :
  let p := expected_pagination key inner in
  or_default (pageParam p) "page" = "page"
  /\ or_default (limitParam p) "limit" = "limit"
  /\ (p_type p = "page" \/ p_type p = "offset").
Proof. unfold expected_pagination. destruct (page_signature inner); simpl; auto. Qed.

Lemma wrapper_parts url opts s :
  let w := generateImportWrapper (generate_request url s) opts in
  t_columns (table (components w)) = map (column_of (samplePath s)) (fields s)
  /\ t_dataBinding (table (components w))
     = "{{datasource.data" +:+ replace_dollar (samplePath s) +:+ "}}"
  /\ c_pagination (components w)
     = match pagination s with
       | Some p => Some (pagination_component p)
       | None => None
       end
  /\ m_fieldCount (metadata w) = length (fields s)
  /\ m_hasPagination (metadata w)
     = match pagination s with Some _ => true | None => false end.
Proof. done. Qed.

(** The wrapper generated for a schema of the shape inference produces. *)
Lemma wrapper_of_inferred url opts s samples suffix :
  fields s = mergeFieldTypes samples ->
  samplePath s = String "$" suffix ->
  (pagination s = None
   \/ exists key inner, pagination s = Some (expected_pagination key inner)) ->
  let w := generateImportWrapper (generate_request url s) opts in
  let columns := t_columns (table (components w)) in
  map c_key columns = map name (fields s)
  /\ NoDup (map c_key columns)
  /\ Forall (fun c => c_type c ∈ ui_types) columns
  /\ Forall (fun c => c_selector c = samplePath s +:+ "[]." +:+ c_key c) columns
  /\ t_dataBinding (table (components w))
     = "{{datasource.data" +:+ suffix +:+ "}}"
  /\ m_fieldCount (metadata w) = length columns
  /\ (m_hasPagination (metadata w) = true
      <-> is_Some (c_pagination (components w)))
  /\ (is_Some (c_pagination (components w)) <-> is_Some (pagination s))
  /\ (forall pc, c_pagination (components w) = Some pc ->
        pc_pageParam pc = "page" /\ pc_limitParam pc = "limit"
        /\ (pc_type pc = "page" \/ pc_type pc = "offset")).
Proof.
  intros Hfields Hpath Hpag w columns. subst w columns.
  destruct (wrapper_parts url opts s) as (-> & -> & -> & -> & ->).
  assert (Hkeys : map c_key (map (column_of (samplePath s)) (fields s))
                  = map name (fields s)) by (by rewrite map_map).
  split; [exact Hkeys |].
  split; [rewrite Hkeys, Hfields; apply mergeFieldTypes_NoDup |].
  split.
  { rewrite map_is_fmap. apply Forall_fmap, Forall_forall. intros f Hf. simpl.
    rewrite Hfields in Hf. by eapply merged_type_ui. }
  split.
  { rewrite map_is_fmap. by apply Forall_fmap, Forall_forall. }
  split; [by rewrite Hpath |].
  split; [by rewrite length_map |].
  split; [destruct (pagination s); split; intros H; try done; by inversion H |].
  split; [destruct (pagination s); split; intros [? ?]; done |].
  intros pc Hpc. destruct Hpag as [Hnone | (key & inner & Hsome)].
  - by rewrite Hnone in Hpc.
  - rewrite Hsome in Hpc. injection Hpc as <-.
    unfold pagination_component. cbn [pc_pageParam pc_limitParam pc_type].
    apply expected_pagination_params.
Qed.

(** X16: the wrapper generated, as the front end requests it, from any
    schema that [inferSchema] returns: its column keys are the schema's
    field names, pairwise distinct; every column type is number, text or
    boolean; every selector is "<samplePath>[].<key>"; the data binding is
    "{{datasource.data}}" for a top-level array and
    "{{datasource.data.<key>}}" for a wrapped one; the metadata agree with
    the components; and a pagination component, present exactly when the
    schema has pagination, always names the parameters "page" and "limit",
    for offset pagination too. *)
Theorem wrapper_of_inferred_schema (url : string) (data : value) (opts : Opts) :
  match inferSchema data with
  | None => True
  | Some s =>
      let w := generateImportWrapper (generate_request url s) opts in
      let columns := t_columns (table (components w)) in
      map c_key columns = map name (fields s)
      /\ NoDup (map c_key columns)
      /\ Forall (fun c => c_type c ∈ ui_types) columns
      /\ Forall (fun c => c_selector c = samplePath s +:+ "[]." +:+ c_key c)
                columns
      /\ (exists suffix,
            samplePath s = "$" +:+ suffix
            /\ t_dataBinding (table (components w))
               = "{{datasource.data" +:+ suffix +:+ "}}"
            /\ (suffix = "" \/ exists key, key <> "" /\ suffix = "." +:+ key))
      /\ m_fieldCount (metadata w) = length columns
      /\ (m_hasPagination (metadata w) = true
          <-> is_Some (c_pagination (components w)))
      /\ (is_Some (c_pagination (components w)) <-> is_Some (pagination s))
      /\ (forall pc, c_pagination (components w) = Some pc ->
            pc_pageParam pc = "page" /\ pc_limitParam pc = "limit"
            /\ (pc_type pc = "page" \/ pc_type pc = "offset"))
  end.
Proof.
  destruct (inferSchema data) as [s |] eqn:Hs; [| done].
  assert (Hshape : exists samples suffix,
             fields s = mergeFieldTypes samples
             /\ samplePath s = String "$" suffix
             /\ (suffix = "" \/ exists key, key <> "" /\ suffix = "." +:+ key)
             /\ (pagination s = None
                 \/ exists key inner,
                      pagination s = Some (expected_pagination key inner))).
  { destruct data as [| | | | | items | props]; try done.
    - destruct items as [| x items]; [done |].
      cbn [inferSchema] in Hs. injection Hs as <-.
      exists (slice5 (x :: items)), "". simpl. auto.
    - unfold inferSchema, findArrayPath in Hs. cbn [Array_isArray] in Hs.
      destruct (findArrayPath_loop props) as [key |]; [| done].
      destruct (String.eqb_spec key "") as [| Hkey]; [done |].
      destruct (get_prop props key) as [| | | | | array |]; try done.
      injection Hs as <-. exists (slice5 array), ("." +:+ key).
      cbn [fields samplePath pagination]. repeat split; try done.
      + right. by exists key.
      + unfold detectPagination, for_in.
        pose proof (detectPagination_loop_first props) as Hp.
        destruct (detectPagination_loop props) as [p |]; [| by left].
        destruct Hp as (_ & k & inner & _ & _ & _ & _ & ->). right. eauto. }
  destruct Hshape as (samples & suffix & Hfields & Hpath & Hsuffix & Hpag).
  destruct (wrapper_of_inferred url opts s samples suffix Hfields Hpath Hpag)
    as (H1 & H2 & H3 & H4 & H5 & H6 & H7 & H8 & H9).
  cbv zeta.
  split; [exact H1 |]. split; [exact H2 |]. split; [exact H3 |].
  split; [exact H4 |].
  split; [exists suffix; by rewrite Hpath |].
  split; [exact H6 |]. split; [exact H7 |]. split; [exact H8 | exact H9].
Qed.

End PipelineFacts.

(** * The test route *)

Section TestRouteFacts.

Import Fetcher FetcherSpec FetcherUtil FetcherMore Schema TestRoute.

Variable URL_valid : string -> bool.
Variable JSON_stringify : value -> option string.
Variable JSON_stringify_indented : value -> option string.
Variable JSON_parses : string -> bool.
Variable responseTime : Z.

Local Abbreviation route :=
  (test_route URL_valid JSON_stringify JSON_stringify_indented JSON_parses
              responseTime).
Local Abbreviation answer :=
  (respond JSON_stringify JSON_stringify_indented JSON_parses responseTime).

(** The result of a run in which attempt [a + m] is the first to receive
    a response. *)
Lemma fetchLoop_result_at_response axios maxRetries initialDelay m :
  forall a le r,
    Z.of_nat (a + m) <= maxRetries ->
    received (axios (a + m)%nat) = Some r ->
    (forall j, (a <= j < a + m)%nat -> received (axios j) = None) ->
    snd (fetchLoop axios maxRetries initialDelay a le)
    = Return (result_of (axios (a + m)%nat) r).
Proof.
  induction m as [| m IH]; intros a le r Hle Hr Hfail.
  - rewrite Nat.add_0_r in *.
    destruct (fetchLoop_cases axios maxRetries initialDelay a le)
      as [[Hgt E] | [[_ (r0 & Ha & E)] | [[_ (e & r0 & Ha & He & E)]
                                         | [_ (e & Ha & He & E)]]]];
      try lia; rewrite E, Ha; rewrite Ha in Hr; simpl in Hr; simpl;
      congruence.
  - assert (Hnone : received (axios a) = None) by (apply Hfail; lia).
    destruct (fetchLoop_cases axios maxRetries initialDelay a le)
      as [[Hgt E] | [[_ (r0 & Ha & E)] | [[_ (e & r0 & Ha & He & E)]
                                         | [_ (e & Ha & He & E)]]]];
      try lia; rewrite Ha in Hnone; simpl in Hnone; try congruence.
    rewrite E. cbn [prepend snd].
    rewrite (IH (S a) (Some e) r); rewrite ?Nat.add_succ_comm; try done.
    intros j Hj. apply Hfail. lia.
Qed.

(** The two ways the handler's call of the fetcher can go. *)
Lemma test_run_cases axios :
  (exists k r,
      (k <= 2)%nat /\ first_response axios k r
      /\ fetchWithRetry axios 2 500
         = (backoff_schedule axios 500 k, Return (result_of (axios k) r)))
  \/ (never_answers axios 2
      /\ exists e,
           fetchWithRetry axios 2 500
           = (backoff_schedule axios 500 2, Return (exhausted_result e))).
Proof.
  destruct (fetch_run_shape axios 2 500) as
    [(k & r & res & Hk & Hfirst & Hrun & _) | (Hnever & e & _ & Hrun)]; [lia | |].
  - left. exists k, r. split; [simpl in Hk; lia |]. split; [done |].
    pose proof (fetchLoop_result_at_response axios 2 500 k 0 None r) as Hres.
    rewrite Nat.add_0_l in Hres. destruct Hfirst as [Hr Hbefore].
    unfold fetchWithRetry in *. rewrite Hrun in Hres |- *. cbn [snd] in Hres.
    f_equal. apply Hres; [simpl in Hk; lia | done |].
    intros j Hj. apply Hbefore. lia.
  - right. split; [done |]. by exists e.
Qed.

Lemma route_valid u hs qs axios tr res :
  Generator.truthy u = true -> URL_valid u = true ->
  fetchWithRetry axios 2 500 = (tr, Return res) ->
  route (Some u) hs qs axios
  = mkHandled (answer u hs qs res).1.1 (answer u hs qs res).1.2
              (answer u hs qs res).2 tr.
Proof.
  intros Hu Hv Hrun. unfold test_route. rewrite Hu, Hv, Hrun. cbn [negb fst snd].
  by destruct (answer u hs qs res) as [[c b] s].
Qed.

Lemma truncate_defined stringify v n :
  (forall w, w <> VUndefined -> stringify w <> None) ->
  v <> VUndefined -> is_Some (truncate stringify v n).
Proof.
  intros Hs Hv. unfold truncate.
  assert (Htext : is_Some (match v with VStr s => Some s | _ => stringify v end)).
  { destruct v; try done; by apply not_eq_None_Some, Hs. }
  destruct Htext as [s ->]. by destruct (_ <=? _).
Qed.

Lemma result_of_fields o r :
  status (result_of o r) = r_status r
  /\ headers (result_of o r) = Some (r_headers r)
  /\ data (result_of o r) = Some (r_data r)
  /\ success (result_of o r) = is_resolved o.
Proof. by destruct o. Qed.

Lemma result_of_not_network o r :
  r_status r <> 0 -> is_network_error (result_of o r) = false.
Proof.
  intros Hnz. unfold is_network_error.
  destruct (result_of_fields o r) as (-> & _).
  apply andb_false_iff. right. by apply Z.eqb_neq.
Qed.

(** The handler's answer to a response with a non-zero status, branch by
    branch. *)
Lemma answer_response u hs qs o r :
  r_status r <> 0 ->
  answer u hs qs (result_of o r)
  = if (r_status r >=? 200) && (r_status r <? 300) then
      if negb (isJsonResponse JSON_parses (r_data r) (r_headers r)) then
        match truncate JSON_stringify_indented (r_data r) 500 with
        | Some snippet =>
            (200, NonJson (r_status r) (get_header (r_headers r) "content-type")
                          snippet, [])
        | None => (500, Unexpected, [])
        end
      else
        match inferSchema (r_data r) with
        | None =>
            match truncate JSON_stringify_indented (r_data r) 500 with
            | Some snippet => (200, NoSchema (r_status r) snippet, [])
            | None => (500, Unexpected, [])
            end
        | Some schema =>
            let call := mkTestData u hs qs true (r_status r) responseTime None
                                   (Some schema) in
            match truncate JSON_stringify_indented
                           (of_undefined (JSON_stringify (r_data r))) 1000 with
            | Some sample => (200, Inferred (r_status r) schema sample, [call])
            | None => (500, Unexpected, [call])
            end
        end
    else
      let call := mkTestData u hs qs false (r_status r) responseTime
                             (Some (http_message (result_of o r))) None in
      match truncate JSON_stringify_indented (r_data r) 500 with
      | Some snippet =>
          (200,
           HttpFailure (r_status r) (http_message (result_of o r))
                       (generateHints (r_status r) None) snippet,
           [call])
      | None => (500, Unexpected, [call])
      end.
Proof.
  intros Hnz. unfold respond. rewrite (result_of_not_network o r Hnz).
  by destruct (result_of_fields o r) as (-> & -> & -> & _).
Qed.

Lemma answer_exhausted u hs qs e :
  answer u hs qs (exhausted_result e)
  = (200,
     NetworkFailure ("Network error: " +:+ e_message e)
                    (generateHints 0 (Some (or_default (e_code e) "NETWORK_ERROR")))
                    (Some (or_default (e_code e) "NETWORK_ERROR")),
     [mkTestData u hs qs false 0 responseTime (Some (e_message e)) None]).
Proof. done. Qed.

(** X17: for a valid URL and responses that carry a body and a non-zero
    status, [POST /api/test] always answers with HTTP 200 (never through
    its [catch] branch), after at most three requests and at most 1500 ms
    of waiting; the answer is the network-error one exactly when none of
    the three attempts received a response; and [saveApiTest] is called
    once, with the request's URL, headers and query parameters and with
    [success] equal to the reply's [ok], for every outcome except the
    non-JSON and the no-schema ones, for which nothing is saved. *)
Theorem test_route_answers u hs qs axios :
  Generator.truthy u = true ->
  URL_valid u = true ->
  (forall v, v <> VUndefined -> JSON_stringify v <> None) ->
  (forall v, v <> VUndefined -> JSON_stringify_indented v <> None) ->
  (forall j r, received (axios j) = Some r ->
               r_status r <> 0 /\ r_data r <> VUndefined) ->
  let h := route (Some u) hs qs axios in
  http h = 200
  /\ (exists n, (n <= 2)%nat /\ requests (performed h) = seq 0 (S n))
  /\ total_sleep (performed h) <= 1500
  /\ (is_network_failure (body h) = true <-> never_answers axios 2)
  /\ (saved h = [] <-> recorded (body h) = false)
  /\ (length (saved h) <= 1)%nat
  /\ Forall (fun call => td_url call = u /\ td_headers call = hs
                         /\ td_queryParams call = qs
                         /\ td_success call = ok (body h))
            (saved h).
Proof.
  intros Hu Hv Hs Hsi Hresp h. subst h.
  destruct (test_run_cases axios)
    as [(k & r & Hk & Hfirst & Hrun) | (Hnever & e & Hrun)];
    rewrite (route_valid u hs qs axios _ _ Hu Hv Hrun).
  - destruct (Hresp k r (proj1 Hfirst)) as [Hnz Hdata].
    assert (Hnot : ~ never_answers axios 2).
    { intros Hnever. destruct Hfirst as [Hr _].
      rewrite Hnever in Hr by lia. discriminate. }
    rewrite (answer_response u hs qs (axios k) r Hnz).
    destruct (truncate_defined JSON_stringify_indented (r_data r) 500 Hsi Hdata)
      as [snippet ->].
    assert (Hsample : is_Some (truncate JSON_stringify_indented
                                 (of_undefined (JSON_stringify (r_data r))) 1000)).
    { destruct (JSON_stringify (r_data r)) as [s |] eqn:Hjs.
      - by apply truncate_defined.
      - by apply Hs in Hjs. }
    destruct Hsample as [sample ->].
    assert (Hsleep : total_sleep (backoff_schedule axios 500 k) <= 1500).
    { unfold total_sleep. rewrite sleeps_backoff_schedule, sum_backoff.
      assert (2 ^ Z.of_nat k <= 2 ^ 2) by (apply Z.pow_le_mono_r; lia). lia. }
    destruct ((r_status r >=? 200) && (r_status r <? 300));
      [destruct (negb (isJsonResponse _ _ _));
       [| destruct (inferSchema (r_data r))] |];
      cbn [fst snd http body saved performed is_network_failure recorded ok];
      (split; [done |]);
      (split; [exists k; by rewrite requests_backoff_schedule |]);
      (split; [done |]);
      (split; [by split |]);
      (split; [by split |]);
      (split; [simpl; lia |]);
      repeat constructor.
  - rewrite answer_exhausted.
    cbn [fst snd http body saved performed is_network_failure recorded ok].
    split; [done |].
    split; [exists 2%nat; by rewrite requests_backoff_schedule |].
    split; [unfold total_sleep; by rewrite sleeps_backoff_schedule, sum_backoff |].
    split; [by split |]. split; [by split |]. split; [simpl; lia |].
    repeat constructor.
Qed.

(** X18: for a valid URL, the reply has [ok: true] exactly when the first
    response received within the three attempts has a 2xx status, counts
    as JSON and yields a schema; the reply then carries that response's
    status and the schema inferred from its body, and the same schema is
    what is saved. *)
Theorem test_route_ok_iff u hs qs axios :
  Generator.truthy u = true ->
  URL_valid u = true ->
  (forall v, v <> VUndefined -> JSON_stringify v <> None) ->
  let h := route (Some u) hs qs axios in
  (ok (body h) = true
   <-> exists k r,
         (k <= 2)%nat /\ first_response axios k r
         /\ is_2xx (r_status r)
         /\ isJsonResponse JSON_parses (r_data r) (r_headers r) = true
         /\ is_Some (inferSchema (r_data r)))
  /\ (forall st schema sample,
         body h = Inferred st schema sample ->
         exists k r,
           first_response axios k r
           /\ st = r_status r
           /\ inferSchema (r_data r) = Some schema
           /\ (exists text,
                  JSON_stringify (r_data r) = Some text
                  /\ truncate JSON_stringify_indented (VStr text) 1000 = Some sample)
           /\ saved h = [mkTestData u hs qs true st responseTime None (Some schema)]).
Proof.
  intros Hu Hv Hs h. subst h.
  destruct (test_run_cases axios)
    as [(k & r & Hk & Hfirst & Hrun) | (Hnever & e & Hrun)];
    rewrite (route_valid u hs qs axios _ _ Hu Hv Hrun).
  - assert (Hsame : forall k' r', first_response axios k' r' -> r' = r).
    { intros k' r' [Hr' Hb']. destruct Hfirst as [Hr Hb].
      destruct (Nat.lt_trichotomy k k') as [Hlt | [-> | Hlt]].
      - rewrite (Hb' k Hlt) in Hr. discriminate.
      - congruence.
      - rewrite (Hb k' Hlt) in Hr'. discriminate. }
    destruct (decide (r_status r = 0)) as [Hz | Hnz].
    { (* a response with status 0 is never a 2xx one *)
      assert (Hno : ok (answer u hs qs (result_of (axios k) r)).1.2 = false).
      { unfold respond. destruct (result_of_fields (axios k) r) as (-> & _).
        rewrite Hz. destruct (is_network_error _); [done |].
        cbn [Z.geb Z.compare andb]. by case_match. }
      cbn [body saved]. split.
      - rewrite Hno. split; [done |].
        intros (k' & r' & _ & Hf' & [H2 _] & _).
        apply Hsame in Hf' as ->. lia.
      - intros st schema sample Hb. rewrite Hb in Hno. discriminate. }
    rewrite (answer_response u hs qs (axios k) r Hnz).
    destruct ((r_status r >=? 200) && (r_status r <? 300)) eqn:H2xx.
    + apply andb_true_iff in H2xx as [Hge Hlt].
      apply Z.geb_le in Hge. apply Z.ltb_lt in Hlt.
      destruct (isJsonResponse JSON_parses (r_data r) (r_headers r)) eqn:Hjson;
        cbn [negb].
      * destruct (inferSchema (r_data r)) as [schema |] eqn:Hschema.
        -- assert (Hdata : r_data r <> VUndefined).
           { intros Hd. rewrite Hd in Hschema. discriminate. }
           destruct (JSON_stringify (r_data r)) as [text |] eqn:Hjs;
             [| by apply Hs in Hjs].
           cbn [of_undefined].
           assert (Hsample : is_Some (truncate JSON_stringify_indented
                                        (VStr text) 1000)).
           { unfold truncate. by destruct (_ <=? _). }
           destruct Hsample as [sample Hsample]. rewrite Hsample.
           cbn [fst snd body saved ok]. split.
           ++ split; [| done]. intros _. exists k, r.
              repeat split; try done; try apply Hfirst; by eexists.
           ++ intros st schema' sample' [= <- <- <-]. exists k, r.
              repeat split; try done; try apply Hfirst. by exists text.
        -- destruct (truncate _ _ _); cbn [fst snd body saved ok];
             (split; [split; [done |] | done]);
             intros (k' & r' & _ & Hf' & _ & _ & Hsome);
             apply Hsame in Hf' as ->; rewrite Hschema in Hsome;
             by destruct Hsome.
      * destruct (truncate _ _ _); cbn [fst snd body saved ok];
          (split; [split; [done |] | done]);
          intros (k' & r' & _ & Hf' & _ & Hj' & _);
          apply Hsame in Hf' as ->; congruence.
    + assert (Hnot : ~ is_2xx (r_status r)).
      { intros [H2 H3]. apply andb_false_iff in H2xx as [H | H].
        - rewrite Z.geb_leb in H. apply Z.leb_gt in H. lia.
        - apply Z.ltb_ge in H. lia. }
      cbv zeta.
      destruct (truncate _ _ _); cbn [fst snd body saved ok];
        (split; [split; [done |] | done]);
        intros (k' & r' & _ & Hf' & H2 & _);
        by apply Hsame in Hf' as ->.
  - rewrite answer_exhausted. cbn [fst snd body saved ok]. split.
    + split; [done |]. intros (k & r & Hk & [Hr _] & _).
      rewrite Hnever in Hr by lia. discriminate.
    + intros st schema sample Hb. discriminate.
Qed.

End TestRouteFacts.

Section TestRouteExamples.

Import Fetcher FetcherSpec FetcherUtil FetcherMore Schema TestRoute.

Lemma stringify_example_defined v :
  v <> VUndefined -> stringify_example v <> None.
Proof. by destruct v. Qed.

(** A refused connection, then a 503: the second attempt is answered. *)
Lemma test_route_answers_witness :
  let h := test_route (fun u => String.prefix "http" u) stringify_example
                      stringify_example (fun _ => false) 42
                      (Some "http://localhost:3001/orders") [] []
                      refused_then_503 in
  http h = 200
  /\ (exists n, (n <= 2)%nat /\ requests (performed h) = seq 0 (S n))
  /\ total_sleep (performed h) <= 1500
  /\ (is_network_failure (body h) = true <-> never_answers refused_then_503 2)
  /\ (saved h = [] <-> recorded (body h) = false)
  /\ (length (saved h) <= 1)%nat
  /\ Forall (fun call => td_url call = "http://localhost:3001/orders"
                         /\ td_headers call = []
                         /\ td_queryParams call = []
                         /\ td_success call = ok (body h))
            (saved h).
Proof.
  apply (test_route_answers (fun u => String.prefix "http" u) stringify_example
           stringify_example (fun _ => false) 42
           "http://localhost:3001/orders" [] [] refused_then_503).
  - reflexivity.
  - reflexivity.
  - apply stringify_example_defined.
  - apply stringify_example_defined.
  - intros [| j] r; simpl; [discriminate |]. intros [= <-]. by split.
Defined.

Lemma test_route_ok_iff_witness :
  let h := test_route (fun u => String.prefix "http" u) stringify_example
                      stringify_example (fun _ => false) 42
                      (Some "http://localhost:3001/orders") [] []
                      (fun _ => Resolved ok_orders) in
  (ok (body h) = true
   <-> exists k r,
         (k <= 2)%nat /\ first_response (fun _ => Resolved ok_orders) k r
         /\ is_2xx (r_status r)
         /\ isJsonResponse (fun _ => false) (r_data r) (r_headers r) = true
         /\ is_Some (inferSchema (r_data r)))
  /\ (forall st schema sample,
         body h = Inferred st schema sample ->
         exists k r,
           first_response (fun _ => Resolved ok_orders) k r
           /\ st = r_status r
           /\ inferSchema (r_data r) = Some schema
           /\ (exists text,
                  stringify_example (r_data r) = Some text
                  /\ truncate stringify_example (VStr text) 1000 = Some sample)
           /\ saved h = [mkTestData "http://localhost:3001/orders" [] [] true st 42
                                    None (Some schema)]).
Proof.
  apply (test_route_ok_iff (fun u => String.prefix "http" u) stringify_example
           stringify_example (fun _ => false) 42
           "http://localhost:3001/orders" [] [] (fun _ => Resolved ok_orders)).
  - reflexivity.
  - reflexivity.
  - apply stringify_example_defined.
Defined.

End TestRouteExamples.

(** * The mock server *)

Section MockServerFacts.

Import Schema MockServer.






(** X20: what the schema inference makes of the mock server's answers.
    An authorized request for a page that holds orders is inferred with
    [samplePath] [$.orders], the fields of the page's first five orders
    and page-based pagination read from [meta.page], [meta.per_page] and
    [meta.total]; a page without orders (past the end) yields no schema
    at all, and neither does the 401 answer. *)
Theorem orders_schema (mockOrders : list value) authorization query_page query_limit :
  let page := or_number query_page 1 in
  let limit := or_number query_limit 10 in
  let reply := get_orders mockOrders authorization query_page query_limit in
  (requireAuth authorization = false ->
   reply.1 = 401 /\ inferSchema reply.2 = None)
  /\ (requireAuth authorization = true ->
      reply.1 = 200
      /\ inferSchema reply.2
         = match paginatedOrders mockOrders page limit with
           | [] => None
           | _ :: _ =>
               Some (mkSchema "$.orders"
                       (mergeFieldTypes (take 5 (paginatedOrders mockOrders page limit)))
                       (Some (mkPagination "page" (Some "page") None (Some "limit")
                                (Some [("currentPage", "meta.page");
                                       ("perPage", "meta.per_page");
                                       ("total", "meta.total")]))))
           end).
Proof.
  intros page limit reply. subst reply. unfold get_orders. split; intros ->.
  - done.
  - cbn [negb fst snd]. split; [done |]. fold page. fold limit.
    destruct (paginatedOrders mockOrders page limit) as [| o rest] eqn:Hpage;
      [done |].
    cbn [inferSchema findArrayPath Array_isArray findArrayPath_loop].
    cbn [String.eqb Ascii.eqb Bool.eqb get_prop].
    rewrite slice5_take5. done.
Qed.

End MockServerFacts.
